(** * Skyhub image pipeline (skyhub_server.go): a shallow embedding

    The Go program downloads a manifest of image URLs, fetches and decodes
    every image, resizes each one to three fixed sizes, writes the resized
    files to the local file system and upserts a (name, URL) document per
    file into a MongoDB collection.

    Go strings are byte strings and are modelled by [string]; Go's [int] is
    modelled by [Z] (the indices handled here are far below 2^63); the
    64-bit [uint] of [ImageSize] is a [Z] with the conversion to [int]
    written out.  The network, the JPEG codec, the file system and the
    database driver are external: their answers are the fields of an
    environment [Env], their effects are updates of an explicit [World]. *)

From Stdlib Require Import ZArith Lia Bool Ascii String List DecimalString.
From Stdlib Require DecimalPos.
From stdpp Require Import base option list strings gmap.

Local Open Scope string_scope.
Local Open Scope list_scope.
Local Open Scope Z_scope.

(** ** Errors, results, panics *)

(** Go [error] values.  [errorString] is what [errors.New] builds; the two
    JSON errors are those of encoding/json; [externalError] stands for any
    error reported by the network, the codec, the file system or the
    database driver. *)
Inductive error : Type :=
| errorString (msg : string)
| SyntaxError
| UnmarshalTypeError (value : string)
| externalError (msg : string).

(** The outcome of a call of a Go function returning [(A, error)]:
    [Ok a] is [(a, nil)], [Err e] is [(zero, e)], [Panic] is a run-time
    panic (the call does not return). *)
Inductive Out (A : Type) : Type :=
| Ok (a : A)
| Err (e : error)
| Panic.
Arguments Ok {A} a.
Arguments Err {A} e.
Arguments Panic {A}.

(** ** Strings *)

Definition len (s : string) : Z := Z.of_nat (String.length s).

(** [strings.LastIndex s sep]: the index of the last instance of [sep] in
    [s], or -1.  The scan goes left to right and remembers the last
    position at which [sep] is a prefix of the rest. *)
Fixpoint lastIndexFrom (s sep : string) (i acc : Z) : Z :=
  let acc' := if String.prefix sep s then i else acc in
  match s with
  | EmptyString => acc'
  | String _ s' => lastIndexFrom s' sep (i + 1) acc'
  end.

Definition LastIndex (s sep : string) : Z := lastIndexFrom s sep 0 (-1).

(** The slice expression [s[lo:hi]] on a string: a run-time panic unless
    [0 <= lo <= hi <= len(s)]. *)
Definition slice (s : string) (lo hi : Z) : Out string :=
  if (0 <=? lo) && (lo <=? hi) && (hi <=? len s)
  then Ok (String.substring (Z.to_nat lo) (Z.to_nat (hi - lo)) s)
  else Panic.

(** ** nameFromUrl *)

(** The source returns the pair [(error, string)]; [Err e] stands for
    [(e, "")] and [Ok name] for [(nil, name)]. *)
Definition nameFromUrl (imgurl : string) : Out string :=
  let leftIndex := LastIndex imgurl "/" + 1 in
  let rightIndex := LastIndex imgurl "." in
  if (leftIndex =? -1) || (rightIndex =? -1)
  then Err (errorString "Can't parse name from URL.")
  else slice imgurl leftIndex rightIndex.

(** ** Data model *)

Record ImageSize : Type := mkImageSize { width : Z; height : Z }.

Record Url : Type := mkUrl { Url_Url : string }.

(** A [[]Url] slice: its elements, and what lies behind its length in
    its backing array, as far as anything has been written there (an
    earlier, longer content of the slice); further on the backing array,
    as every array that is allocated later, holds zero values.  The nil
    slice and a fresh empty slice have neither. *)
Record UrlSlice : Type := mkUrlSlice { slice_elems : list Url; slice_spare : list Url }.

(** The format of the JSON input from the endpoint. *)
Record SkyhubResponse : Type := mkSkyhubResponse { Images : UrlSlice }.

(** Document of the database: image name and the URL of the resized file. *)
Record MongoDocument : Type := mkMongoDocument { doc_Name : string; doc_Url : string }.

Definition smallSize : ImageSize := mkImageSize 320 240.
Definition mediumSize : ImageSize := mkImageSize 384 288.
Definition largeSize : ImageSize := mkImageSize 640 480.

Definition filepathPrefix : string := "/home/edufgf/Desktop/B2W/skyhub/".
Definition Database : string := "B2W".
Definition Collection : string := "skyhub".
Definition DatabaseAddr : string := "127.0.0.1:27017".
Definition ServerAddr : string := "localhost:7366".
Definition EndpointAddr : string := "http://54.152.221.29/images.json".

(** [int(u)] for a 64-bit [uint] [u] (0 <= u < 2^64): values from 2^63 on
    wrap around to the negative integers. *)
Definition int_of_uint (u : Z) : Z :=
  if u <? 2 ^ 63 then u else u - 2 ^ 64.

(** [strconv.Itoa]: the decimal numeral of an [int], with a leading minus
    sign for negative numbers and no leading zeros. *)
Definition Itoa (i : Z) : string := NilZero.string_of_int (Z.to_int i).

(** ** JSON values and encoding/json.Unmarshal into [SkyhubResponse] *)

#[warnings="-register-all"]
Inductive JSON : Type :=
| JNull
| JBool (b : bool)
| JNumber (literal : string)
| JString (s : string)
| JArray (elems : list JSON)
| JObject (members : list (string * JSON)).

(** The word encoding/json puts in an [UnmarshalTypeError] for a value. *)
Definition jsonKind (v : JSON) : string :=
  match v with
  | JNull => "null"
  | JBool _ => "bool"
  | JNumber _ => "number"
  | JString _ => "string"
  | JArray _ => "array"
  | JObject _ => "object"
  end.

Definition upperAscii (c : ascii) : ascii :=
  let n := nat_of_ascii c in
  if ((97 <=? n) && (n <=? 122))%nat then ascii_of_nat (n - 32) else c.

(** Case folding of an object key as encoding/json does it when it looks
    for the struct field of a key: ASCII letters fold to upper case, and
    the two non-ASCII runes that fold to an ASCII letter, U+017F (long s,
    bytes C5 BF) and U+212A (Kelvin sign, bytes E2 84 AA), fold to S and
    K. *)
Fixpoint foldName (s : string) : string :=
  match s with
  | EmptyString => EmptyString
  | String c rest =>
    match rest with
    | String c1 rest1 =>
      if ((nat_of_ascii c =? 197) && (nat_of_ascii c1 =? 191))%nat
      then String "S" (foldName rest1)
      else
        match rest1 with
        | String c2 rest2 =>
          if ((nat_of_ascii c =? 226) && (nat_of_ascii c1 =? 132)
              && (nat_of_ascii c2 =? 170))%nat
          then String "K" (foldName rest2)
          else String (upperAscii c) (foldName rest)
        | EmptyString => String (upperAscii c) (foldName rest)
        end
    | EmptyString => String (upperAscii c) EmptyString
    end
  end.

(** A key designates a field when it equals the field name exactly or
    under case folding. *)
Definition fieldMatches (field key : string) : bool :=
  bool_decide (key = field) || bool_decide (foldName key = foldName field).

(** Unmarshal keeps the first type error and goes on decoding. *)
Definition saveError (saved : option error) (e : error) : option error :=
  match saved with
  | None => Some e
  | Some _ => saved
  end.

(** A JSON value stored into a Go [string]: a string is stored, null has
    no effect, anything else is a type error and the field is skipped. *)
Definition unmarshalString (v : JSON) (cur : string) (saved : option error)
  : string * option error :=
  match v with
  | JString s => (s, saved)
  | JNull => (cur, saved)
  | _ => (cur, saveError saved (UnmarshalTypeError (jsonKind v)))
  end.

(** A JSON value stored into a [Url] struct: the members of an object are
    taken in order, a key that designates no field is ignored. *)
Definition unmarshalUrl (v : JSON) (cur : Url) (saved : option error)
  : Url * option error :=
  match v with
  | JObject members =>
    fold_left
      (fun (st : Url * option error) (m : string * JSON) =>
         if fieldMatches "Url" (fst m)
         then let r := unmarshalString (snd m) (Url_Url (fst st)) (snd st) in
              (mkUrl (fst r), snd r)
         else st)
      members (cur, saved)
  | JNull => (cur, saved)
  | _ => (cur, saveError saved (UnmarshalTypeError (jsonKind v)))
  end.

(** The elements of a JSON array stored one after the other into a slice
    whose backing array holds [backing] from the current index on: the
    decoder sets the length to [i + 1] and decodes into the element at
    [i], which it does not clear first, so that element starts from what
    the backing array holds there, and from the zero value behind that.
    The result: the decoded elements, what is left of the backing array
    behind them, and the kept error. *)
Fixpoint unmarshalUrlElems (elems : list JSON) (backing : list Url)
  (saved : option error) : list Url * list Url * option error :=
  match elems with
  | [] => ([], backing, saved)
  | x :: elems' =>
    let start := match backing with u :: _ => u | [] => mkUrl "" end in
    let r := unmarshalUrl x start saved in
    let rest := unmarshalUrlElems elems' (tail backing) (snd r) in
    (fst r :: fst (fst rest), snd (fst rest), snd rest)
  end.

(** A JSON value stored into a [[]Url] slice.  An array is decoded
    element by element into the slice, which is cut at the number of
    elements; an empty array gives a fresh empty slice; null gives the
    nil slice; anything else is a type error and the slice is left as it
    is. *)
Definition unmarshalUrls (v : JSON) (cur : UrlSlice) (saved : option error)
  : UrlSlice * option error :=
  match v with
  | JArray [] => (mkUrlSlice [] [], saved)
  | JArray elems =>
    let r := unmarshalUrlElems elems (slice_elems cur ++ slice_spare cur) saved in
    (mkUrlSlice (fst (fst r)) (snd (fst r)), snd r)
  | JNull => (mkUrlSlice [] [], saved)
  | _ => (cur, saveError saved (UnmarshalTypeError (jsonKind v)))
  end.

Definition unmarshalSkyhubResponse (v : JSON) (cur : SkyhubResponse)
  (saved : option error) : SkyhubResponse * option error :=
  match v with
  | JObject members =>
    fold_left
      (fun (st : SkyhubResponse * option error) (m : string * JSON) =>
         if fieldMatches "Images" (fst m)
         then let r := unmarshalUrls (snd m) (Images (fst st)) (snd st) in
              (mkSkyhubResponse (fst r), snd r)
         else st)
      members (cur, saved)
  | JNull => (cur, saved)
  | _ => (cur, saveError saved (UnmarshalTypeError (jsonKind v)))
  end.

(** ** The environment and the world *)

(** The answer of a library call returning [(A, error)]. *)
Inductive Res (A : Type) : Type :=
| ret_ok (a : A)
| ret_err (e : error).
Arguments ret_ok {A} a.
Arguments ret_err {A} e.

(** What the outside answers during one run.  [Response] is an HTTP
    response with its unread body, [Image] a decoded [image.Image].
    [json_value] is the syntactic layer of encoding/json: the value a text
    denotes, [None] when the text is not valid JSON. *)
Record Env (Response Image : Type) : Type := mkEnv {
  http_Get : string -> Res Response;
  ioutil_ReadAll : Response -> Res string;
  json_value : string -> option JSON;
  jpeg_Decode : Response -> Res Image;
  resize_Resize : Z -> Z -> Image -> Image;
  os_Create : string -> option error;
  jpeg_Encode : string -> Image -> option error;
  mgo_Dial : string -> option error;
  mgo_Upsert : MongoDocument -> option error
}.
Arguments http_Get {Response Image} e _.
Arguments ioutil_ReadAll {Response Image} e _.
Arguments json_value {Response Image} e _.
Arguments jpeg_Decode {Response Image} e _.
Arguments resize_Resize {Response Image} e _ _ _.
Arguments os_Create {Response Image} e _.
Arguments jpeg_Encode {Response Image} e _ _.
Arguments mgo_Dial {Response Image} e _.
Arguments mgo_Upsert {Response Image} e _.

(** A file of the local file system: created (and truncated) but not
    completely written, or holding the JPEG encoding of an image. *)
Inductive File (Image : Type) : Type :=
| Partial
| Jpeg (image : Image).
Arguments Partial {Image}.
Arguments Jpeg {Image} image.

(** The file system (path to file) and the documents of the collection
    [Database]/[Collection], in their natural order.  The handle
    [*mgo.Collection] is left implicit: the program only ever builds the
    handle of that one collection. *)
Record World (Image : Type) : Type := mkWorld {
  fs : gmap string (File Image);
  db : list MongoDocument
}.
Arguments mkWorld {Image} fs db.
Arguments fs {Image} w.
Arguments db {Image} w.

(** [db.Upsert(selector{Name: nm}, doc)]: the first document whose Name is
    [nm] is replaced by [doc]; when there is none, [doc] is inserted. *)
Fixpoint upsert (nm : string) (doc : MongoDocument) (docs : list MongoDocument)
  : list MongoDocument :=
  match docs with
  | [] => [doc]
  | d :: rest =>
    if decide (doc_Name d = nm) then doc :: rest else d :: upsert nm doc rest
  end.

(** How [main] ends: [log.Fatal], a panic, or the server listening. *)
Inductive Exit : Type :=
| Fatal (e : error)
| Crashed
| Listening.

Section Pipeline.
Context {Response Image : Type}.
Variable env : Env Response Image.

Record ImageInfo : Type := mkImageInfo { img : option Image; name : string }.

(** State and error passing for the code that writes files and
    documents. *)
Definition M (A : Type) : Type := World Image -> Out A * World Image.

Definition mret {A} (a : A) : M A := fun w => (Ok a, w).

Definition mbind {A B} (m : M A) (k : A -> M B) : M B :=
  fun w =>
    match m w with
    | (Ok a, w') => k a w'
    | (Err e, w') => (Err e, w')
    | (Panic, w') => (Panic, w')
    end.

Definition liftOut {A} (o : Out A) : M A := fun w => (o, w).

Definition liftErr (o : option error) : M unit :=
  fun w => match o with Some e => (Err e, w) | None => (Ok tt, w) end.

Definition modify (f : World Image -> World Image) : M unit :=
  fun w => (Ok tt, f w).

Notation "x <- m ;; k" := (mbind m (fun x => k))
  (at level 100, m at next level, right associativity).
Notation "m ;;; k" := (mbind m (fun _ => k))
  (at level 100, right associativity).

Definition Unmarshal (data : string) (v : SkyhubResponse)
  : SkyhubResponse * option error :=
  match json_value env data with
  | None => (v, Some SyntaxError)
  | Some j => unmarshalSkyhubResponse j v None
  end.

Definition consumeEndpoint (endpoint : string) : Res (list Url) :=
  match http_Get env endpoint with
  | ret_err e => ret_err e
  | ret_ok resp =>
    match ioutil_ReadAll env resp with
    | ret_err e => ret_err e
    | ret_ok body =>
      let skyresp := mkSkyhubResponse (mkUrlSlice [] []) in
      let r := Unmarshal body skyresp in
      match snd r with
      | Some e => ret_err e
      | None => ret_ok (slice_elems (Images (fst r)))
      end
    end
  end.

Definition connectToDatabase (databaseUrl : string) : Res unit :=
  match mgo_Dial env databaseUrl with
  | Some e => ret_err e
  | None => ret_ok tt
  end.

(** [images[i].f = v]: a panic when [i] is out of range. *)
Definition assignAt (i : nat) (f : ImageInfo -> ImageInfo)
  (images : list ImageInfo) : Out (list ImageInfo) :=
  if decide (i < length images)%nat then Ok (alter f i images) else Panic.

(** The body of the [for i, img := range imagesUrl] loop, from index
    [i] on. *)
Fixpoint getJpegImgsFrom (i : nat) (rest : list Url)
  (images : list ImageInfo) : Out (list ImageInfo) :=
  match rest with
  | [] => Ok images
  | u :: rest' =>
    let imgurl := Url_Url u in
    match http_Get env imgurl with
    | ret_err e => Err e
    | ret_ok resp =>
      match jpeg_Decode env resp with
      | ret_err e => Err e
      | ret_ok im =>
        match assignAt i (fun info => mkImageInfo (Some im) (name info)) images with
        | Ok images1 =>
          match nameFromUrl imgurl with
          | Ok nm =>
            match assignAt i (fun info => mkImageInfo (img info) nm) images1 with
            | Ok images2 => getJpegImgsFrom (S i) rest' images2
            | Err e => Err e
            | Panic => Panic
            end
          | Err e => Err e
          | Panic => Panic
          end
        | Err e => Err e
        | Panic => Panic
        end
      end
    end
  end.

Definition getJpegImgs (imagesUrl : list Url) : Out (list ImageInfo) :=
  getJpegImgsFrom 0 imagesUrl
    (replicate (length imagesUrl) (mkImageInfo None "")).

(** [resize.Resize] asks the image for its bounds: a nil image is a nil
    dereference. *)
Definition resizeImg (image : option Image) (newsize : ImageSize) : Out Image :=
  match image with
  | Some i => Ok (resize_Resize env (width newsize) (height newsize) i)
  | None => Panic
  end.

(** [os.Create] creates or truncates the file, [jpeg.Encode] writes it. *)
Definition saveImgToFile (image : Image) (filepath : string) : M unit :=
  liftErr (os_Create env filepath) ;;;
  modify (fun w => mkWorld (<[filepath := Partial]> (fs w)) (db w)) ;;;
  liftErr (jpeg_Encode env filepath image) ;;;
  modify (fun w => mkWorld (<[filepath := Jpeg image]> (fs w)) (db w)).

Definition dbUpsert (nm : string) (doc : MongoDocument) : M unit :=
  liftErr (mgo_Upsert env doc) ;;;
  modify (fun w => mkWorld (fs w) (upsert nm doc (db w))).

(** The name of the resized image: it contains its dimensions. *)
Definition resizedName (logicalName : string) (size : ImageSize) : string :=
  logicalName +:+ "_" +:+ Itoa (int_of_uint (width size)) +:+ "x"
    +:+ Itoa (int_of_uint (height size)) +:+ ".jpg".

Definition documentFor (nm : string) : MongoDocument :=
  mkMongoDocument nm ("http://" +:+ ServerAddr +:+ "/skyhub/" +:+ nm).

Definition resizeAndStoreToDB (imgInfo : ImageInfo) (size : ImageSize) : M unit :=
  image <- liftOut (resizeImg (img imgInfo) size) ;;
  let nm := resizedName (name imgInfo) size in
  saveImgToFile image (filepathPrefix +:+ nm) ;;;
  let doc := documentFor nm in
  dbUpsert (doc_Name doc) doc.

Fixpoint resizeAndStoreImgsToDB (images : list ImageInfo) : M unit :=
  match images with
  | [] => mret tt
  | imgInfo :: rest =>
    resizeAndStoreToDB imgInfo smallSize ;;;
    resizeAndStoreToDB imgInfo mediumSize ;;;
    resizeAndStoreToDB imgInfo largeSize ;;;
    resizeAndStoreImgsToDB rest
  end.

(** [main] up to the point where the server starts listening. *)
Definition main (w : World Image) : Exit * World Image :=
  match consumeEndpoint EndpointAddr with
  | ret_err e => (Fatal e, w)
  | ret_ok imagesUrl =>
    match getJpegImgs imagesUrl with
    | Err e => (Fatal e, w)
    | Panic => (Crashed, w)
    | Ok images =>
      match connectToDatabase DatabaseAddr with
      | ret_err e => (Fatal e, w)
      | ret_ok _ =>
        match resizeAndStoreImgsToDB images w with
        | (Err e, w') => (Fatal e, w')
        | (Panic, w') => (Crashed, w')
        | (Ok _, w') => (Listening, w')
        end
      end
    end
  end.

End Pipeline.

(** ** Vocabulary of the statements *)

(** The byte [c] occurs in [s]. *)
Fixpoint occurs (c : ascii) (s : string) : bool :=
  match s with
  | EmptyString => false
  | String a s' => if decide (a = c) then true else occurs c s'
  end.

(** [url] contains a [/] followed later by a [.]. *)
Definition slashThenDot (url : string) : Prop :=
  exists i j : nat,
    (i < j)%nat /\ String.get i url = Some "/"%char /\ String.get j url = Some "."%char.

(** The first document of a collection with a given Name: the one an
    upsert on that Name replaces. *)
Fixpoint findDoc (nm : string) (docs : list MongoDocument) : option MongoDocument :=
  match docs with
  | [] => None
  | d :: rest => if decide (doc_Name d = nm) then Some d else findDoc nm rest
  end.

(** A sequence of upserts, each keyed by the Name of its document. *)
Definition upsertAll (docs : list MongoDocument) (index : list MongoDocument)
  : list MongoDocument :=
  fold_left (fun acc d => upsert (doc_Name d) d acc) docs index.

Definition sizeSpecs : list ImageSize := [smallSize; mediumSize; largeSize].

(** The three documents of one logical name, in the order of the loop. *)
Definition recordsOf (logicalName : string) : list MongoDocument :=
  map (fun size => documentFor (resizedName logicalName size)) sizeSpecs.

(** The manifest [{ "Images": [ { "Url": u }, ... ] }] as a JSON value. *)
Definition manifestValue (urls : list string) : JSON :=
  JObject [("Images", JArray (map (fun u => JObject [("Url", JString u)]) urls))].

Definition isStringOrNull (v : JSON) : bool :=
  match v with
  | JString _ | JNull => true
  | _ => false
  end.

(** A value that cannot be stored into a [Url] struct without a type
    error: neither an object nor null, or an object with a member for the
    field Url that is neither a string nor null. *)
Definition urlConflict (v : JSON) : bool :=
  match v with
  | JObject members =>
    existsb (fun m => fieldMatches "Url" (fst m) && negb (isStringOrNull (snd m)))
      members
  | JNull => false
  | _ => true
  end.

Definition urlsConflict (v : JSON) : bool :=
  match v with
  | JArray elems => existsb urlConflict elems
  | JNull => false
  | _ => true
  end.

(** A value that cannot be stored into a [SkyhubResponse] without a type
    error. *)
Definition typeConflict (v : JSON) : bool :=
  match v with
  | JObject members =>
    existsb (fun m => fieldMatches "Images" (fst m) && urlsConflict (snd m))
      members
  | JNull => false
  | _ => true
  end.

Section Vocabulary.
Context {Response Image : Type}.
Variable env : Env Response Image.

(** What one turn of the loop of [getJpegImgs] computes for a
    reference: download, decode, derive the name. *)
Definition fetchAndDecode (u : Url) : Out (@ImageInfo Image) :=
  match http_Get env (Url_Url u) with
  | ret_err e => Err e
  | ret_ok resp =>
    match jpeg_Decode env resp with
    | ret_err e => Err e
    | ret_ok im =>
      match nameFromUrl (Url_Url u) with
      | Ok nm => Ok (mkImageInfo (Some im) nm)
      | Err e => Err e
      | Panic => Panic
      end
    end
  end.

(** The references one after the other, up to the first that fails. *)
Fixpoint fetchAll (urls : list Url) : Out (list (@ImageInfo Image)) :=
  match urls with
  | [] => Ok []
  | u :: rest =>
    match fetchAndDecode u with
    | Ok info =>
      match fetchAll rest with
      | Ok infos => Ok (info :: infos)
      | Err e => Err e
      | Panic => Panic
      end
    | Err e => Err e
    | Panic => Panic
    end
  end.

(** A reference fails: to download, to decode, or to derive a name. *)
Definition referenceFails (u : Url) : Prop :=
  forall info, fetchAndDecode u <> Ok info.

Definition exactlyOneFails (urls : list Url) : Prop :=
  exists (i : nat) (u : Url),
    urls !! i = Some u /\ referenceFails u /\
    forall (j : nat) (u' : Url),
      j <> i -> urls !! j = Some u' -> ~ referenceFails u'.

(** The (reference, size) chains of a list of images, in the order in
    which [resizeAndStoreImgsToDB] runs them. *)
Definition chains (images : list (@ImageInfo Image))
  : list (@ImageInfo Image * ImageSize) :=
  flat_map (fun info => map (fun size => (info, size)) sizeSpecs) images.

(** Chains run one after the other, up to the first that fails. *)
Fixpoint runChains (cs : list (@ImageInfo Image * ImageSize)) : M unit :=
  match cs with
  | [] => mret tt
  | c :: rest =>
    mbind (resizeAndStoreToDB env (fst c) (snd c)) (fun _ => runChains rest)
  end.

(** The world once [os.Create] has created or truncated a file, and
    once [jpeg.Encode] has written it. *)
Definition afterCreate (path : string) (w : World Image) : World Image :=
  mkWorld (<[path := Partial]> (fs w)) (db w).

Definition afterEncode (path : string) (image : Image) (w : World Image)
  : World Image :=
  mkWorld (<[path := Jpeg image]> (<[path := Partial]> (fs w))) (db w).


End Vocabulary.

(** ** Sample environments *)

Definition quote : string := String (ascii_of_nat 34) "".

Fixpoint manifestEntries (urls : list string) : string :=
  match urls with
  | [] => ""
  | u :: rest =>
    "{" +:+ quote +:+ "Url" +:+ quote +:+ ":" +:+ quote +:+ u +:+ quote +:+ "}"
      +:+ match rest with [] => "" | _ => "," +:+ manifestEntries rest end
  end.

(** The text of the manifest of [urls]. *)
Definition manifestText (urls : list string) : string :=
  "{" +:+ quote +:+ "Images" +:+ quote +:+ ":[" +:+ manifestEntries urls +:+ "]}".

(** An environment in which the endpoint answers with the text [body],
    which denotes [value]; every download works; decoding fails for the
    URL [badUrl] only; files and documents are written without error.  A
    response is identified with the URL it comes from, an image with a
    description of it. *)
Definition sampleEnv (body : string) (value : option JSON) (badUrl : string)
  : Env string string :=
  {| http_Get := fun u => ret_ok u;
     ioutil_ReadAll := fun _ => ret_ok body;
     json_value := fun text => if decide (text = body) then value else None;
     jpeg_Decode := fun resp =>
       if decide (resp = badUrl)
       then ret_err (externalError "invalid JPEG format: missing SOI marker")
       else ret_ok ("image of " +:+ resp);
     resize_Resize := fun w h image =>
       image +:+ " resized to " +:+ Itoa w +:+ "x" +:+ Itoa h;
     os_Create := fun _ => None;
     jpeg_Encode := fun _ _ => None;
     mgo_Dial := fun _ => None;
     mgo_Upsert := fun _ => None |}.

Definition manifestEnv (urls : list string) (badUrl : string) : Env string string :=
  sampleEnv (manifestText urls) (Some (manifestValue urls)) badUrl.

Definition emptyWorld : World string := mkWorld ∅ [].

(** ** The size written in a name (the helper of the server test) *)

(** [strconv.ErrSyntax] and [strconv.ErrRange].  [strconv] wraps them in a
    [*NumError] with the function name and the input; the wrapped error
    stands for it here. *)
Definition ErrSyntax : error := errorString "invalid syntax".
Definition ErrRange : error := errorString "value out of range".

Definition isDigit (c : ascii) : bool :=
  let n := nat_of_ascii c in ((48 <=? n) && (n <=? 57))%nat.

(** The smallest number whose tenfold exceeds the largest [uint64]. *)
Definition cutoff10 : Z := (2 ^ 64 - 1) / 10 + 1.

(** The loop of [strconv.ParseUint] in base 10, on the bytes still to
    read, with the [uint64] accumulator [n]: a byte that is no digit is a
    syntax error; a value above [maxVal] is a range error, reported at the
    byte at which it is reached. *)
Fixpoint parseUintFrom (maxVal : Z) (s : string) (n : Z) : Res Z :=
  match s with
  | EmptyString => ret_ok n
  | String c s' =>
    if isDigit c then
      let d := Z.of_nat (nat_of_ascii c) - 48 in
      if cutoff10 <=? n then ret_err ErrRange
      else
        let n10 := (n * 10) mod 2 ^ 64 in
        let n1 := (n10 + d) mod 2 ^ 64 in
        if (n1 <? n10) || (maxVal <? n1) then ret_err ErrRange
        else parseUintFrom maxVal s' n1
    else ret_err ErrSyntax
  end.

(** [strconv.ParseUint(s, 10, bitSize)], for [0 < bitSize <= 64]. *)
Definition ParseUint (s : string) (bitSize : Z) : Res Z :=
  if decide (s = "") then ret_err ErrSyntax
  else parseUintFrom (2 ^ bitSize - 1) s 0.

(** Returns the dimensions of the image from the image name. *)
Definition getImageSizeFromName (nm : string) : Out ImageSize :=
  let leftIndex := LastIndex nm "_" in
  let midIndex := LastIndex nm "x" in
  let rightIndex := LastIndex nm "." in
  if (leftIndex =? -1) || (midIndex =? -1) || (rightIndex =? -1)
  then Err (errorString "Can't read size from image name.")
  else
    match slice nm (leftIndex + 1) midIndex with
    | Ok ws =>
      match ParseUint ws 32 with
      | ret_err e => Err e
      | ret_ok w =>
        match slice nm (midIndex + 1) rightIndex with
        | Ok hs =>
          match ParseUint hs 32 with
          | ret_err e => Err e
          | ret_ok h => Ok (mkImageSize w h)
          end
        | Err e => Err e
        | Panic => Panic
        end
      end
    | Err e => Err e
    | Panic => Panic
    end.

(** The number a decimal numeral denotes when its digits are read from
    the left into the accumulator [n]. *)
Fixpoint accValue (d : Decimal.uint) (n : Z) : Z :=
  match d with
  | Decimal.Nil => n
  | Decimal.D0 l => accValue l (10 * n)
  | Decimal.D1 l => accValue l (10 * n + 1)
  | Decimal.D2 l => accValue l (10 * n + 2)
  | Decimal.D3 l => accValue l (10 * n + 3)
  | Decimal.D4 l => accValue l (10 * n + 4)
  | Decimal.D5 l => accValue l (10 * n + 5)
  | Decimal.D6 l => accValue l (10 * n + 6)
  | Decimal.D7 l => accValue l (10 * n + 7)
  | Decimal.D8 l => accValue l (10 * n + 8)
  | Decimal.D9 l => accValue l (10 * n + 9)
  end.

(** The sample environment on a full disk: files are created, and
    writing them fails. *)
Definition fullDiskEnv : Env string string :=
  {| http_Get := http_Get (manifestEnv [] "");
     ioutil_ReadAll := ioutil_ReadAll (manifestEnv [] "");
     json_value := json_value (manifestEnv [] "");
     jpeg_Decode := jpeg_Decode (manifestEnv [] "");
     resize_Resize := resize_Resize (manifestEnv [] "");
     os_Create := fun _ => None;
     jpeg_Encode := fun _ _ =>
       Some (externalError "write: no space left on device");
     mgo_Dial := fun _ => None;
     mgo_Upsert := fun _ => None |}.

(** * Properties *)

(** ** Strings *)

Lemma append_cons (a : ascii) (s t : string) :
  String a s +:+ t = String a (s +:+ t).
Proof. reflexivity. Qed.

Lemma append_nil_l (t : string) : "" +:+ t = t.
Proof. reflexivity. Qed.

Lemma append_assoc (s t u : string) : (s +:+ t) +:+ u = s +:+ (t +:+ u).
Proof.
  induction s as [|a s IH]; [reflexivity|].
  rewrite !append_cons. by rewrite IH.
Qed.

Lemma length_append (s t : string) :
  String.length (s +:+ t) = (String.length s + String.length t)%nat.
Proof.
  induction s as [|a s IH]; [reflexivity|].
  rewrite append_cons. simpl. by rewrite IH.
Qed.

Lemma len_append (s t : string) : len (s +:+ t) = len s + len t.
Proof. unfold len. rewrite length_append. lia. Qed.

Lemma len_cons (a : ascii) (s : string) : len (String a s) = 1 + len s.
Proof. unfold len. simpl String.length. lia. Qed.

Lemma len_nonneg (s : string) : 0 <= len s.
Proof. unfold len. lia. Qed.

Ltac len_norm :=
  rewrite ?len_append;
  change (len "/") with 1; change (len ".") with 1.

Lemma occurs_append (c : ascii) (s t : string) :
  occurs c (s +:+ t) = occurs c s || occurs c t.
Proof.
  induction s as [|a s IH]; [reflexivity|].
  rewrite append_cons. simpl. destruct (decide (a = c)); [reflexivity|apply IH].
Qed.

(** [substring] cuts out the middle of a concatenation. *)
Lemma substring_middle (a b c : string) :
  String.substring (String.length a) (String.length b) (a +:+ b +:+ c) = b.
Proof.
  induction a as [|x a IH].
  - rewrite append_nil_l. simpl String.length.
    induction b as [|y b IHb].
    + destruct c; reflexivity.
    + rewrite append_cons. simpl. by rewrite IHb.
  - rewrite append_cons. simpl. apply IH.
Qed.

(** ** strings.LastIndex for a one-byte separator *)

Lemma prefix_char (c : ascii) (s : string) :
  String.prefix (String c "") s =
  match s with
  | EmptyString => false
  | String a _ => bool_decide (c = a)
  end.
Proof.
  destruct s as [|a s]; [reflexivity|].
  simpl. destruct (ascii_dec c a) as [->|Hne].
  - rewrite bool_decide_eq_true_2 by reflexivity. by destruct s.
  - by rewrite bool_decide_eq_false_2.
Qed.

Lemma lastIndexFrom_absent (c : ascii) (s : string) (i acc : Z) :
  occurs c s = false -> lastIndexFrom s (String c "") i acc = acc.
Proof.
  revert i acc. induction s as [|a s IH]; intros i acc Hocc.
  - reflexivity.
  - simpl in Hocc. destruct (decide (a = c)) as [|Hne]; [discriminate|].
    cbn [lastIndexFrom]. rewrite prefix_char.
    rewrite bool_decide_eq_false_2 by congruence. by apply IH.
Qed.

Lemma lastIndexFrom_last (c : ascii) (pre post : string) (i acc : Z) :
  occurs c post = false ->
  lastIndexFrom (pre +:+ String c post) (String c "") i acc = i + len pre.
Proof.
  intros Hpost. revert i acc. induction pre as [|a pre IH]; intros i acc.
  - rewrite append_nil_l. cbn [lastIndexFrom]. rewrite prefix_char.
    rewrite bool_decide_eq_true_2 by reflexivity.
    rewrite lastIndexFrom_absent by assumption. unfold len. simpl. lia.
  - rewrite append_cons. cbn [lastIndexFrom]. rewrite IH, len_cons. lia.
Qed.

(** The separator absent: -1. *)
Lemma LastIndex_absent (c : ascii) (s : string) :
  occurs c s = false -> LastIndex s (String c "") = -1.
Proof. intros H. unfold LastIndex. by apply lastIndexFrom_absent. Qed.

(** The separator present: the position of its last occurrence. *)
Lemma LastIndex_last (c : ascii) (pre post : string) :
  occurs c post = false ->
  LastIndex (pre +:+ String c post) (String c "") = len pre.
Proof.
  intros H. unfold LastIndex. rewrite lastIndexFrom_last by assumption. lia.
Qed.

(** A string in which [c] occurs splits at the last occurrence. *)
Lemma occurs_split_last (c : ascii) (s : string) :
  occurs c s = true ->
  exists pre post, s = pre +:+ String c post /\ occurs c post = false.
Proof.
  induction s as [|a s IH]; [discriminate|].
  intros Hocc. destruct (occurs c s) eqn:Hs.
  - destruct (IH eq_refl) as (pre & post & -> & Hpost).
    exists (String a pre), post. by rewrite append_cons.
  - simpl in Hocc. rewrite Hs in Hocc.
    destruct (decide (a = c)) as [->|]; [|discriminate].
    exists "", s. by rewrite append_nil_l.
Qed.

Lemma LastIndex_range (c : ascii) (s : string) :
  (occurs c s = false /\ LastIndex s (String c "") = -1) \/
  (occurs c s = true /\ 0 <= LastIndex s (String c "") < len s).
Proof.
  destruct (occurs c s) eqn:Hocc.
  - right. split; [reflexivity|].
    destruct (occurs_split_last c s Hocc) as (pre & post & -> & Hpost).
    rewrite LastIndex_last by assumption.
    rewrite len_append, len_cons.
    pose proof (len_nonneg pre). pose proof (len_nonneg post). lia.
  - left. split; [reflexivity|]. by apply LastIndex_absent.
Qed.

(** ** nameFromUrl *)

(** The two indices of [nameFromUrl] on a URL cut at its last [/] and,
    after it, at its last [.]. *)
Lemma LastIndex_slash_name_dot_ext (pre nm ext : string) :
  occurs "/" nm = false -> occurs "/" ext = false -> occurs "." ext = false ->
  let url := pre +:+ "/" +:+ nm +:+ "." +:+ ext in
  LastIndex url "/" = len pre /\ LastIndex url "." = len pre + 1 + len nm.
Proof.
  intros Hnm Hext Hdot url. split.
  - subst url. apply (LastIndex_last "/" pre (nm +:+ "." +:+ ext)).
    rewrite occurs_append, Hnm. simpl. exact Hext.
  - subst url.
    replace (pre +:+ "/" +:+ nm +:+ "." +:+ ext)
      with ((pre +:+ "/" +:+ nm) +:+ String "." ext)
      by (rewrite !append_assoc; reflexivity).
    rewrite (LastIndex_last "." _ ext Hdot).
    len_norm. lia.
Qed.

Lemma append_split (a1 b1 a2 b2 : string) :
  a1 +:+ b1 = a2 +:+ b2 ->
  (String.length a1 <= String.length a2)%nat ->
  exists m, a2 = a1 +:+ m /\ b1 = m +:+ b2.
Proof.
  revert a2. induction a1 as [|c a1 IH]; intros a2 Heq Hlen.
  - exists a2. by rewrite !append_nil_l in *.
  - destruct a2 as [|c' a2]; [simpl in Hlen; lia|].
    rewrite !append_cons in Heq. injection Heq as -> Heq.
    assert (Hlen' : (String.length a1 <= String.length a2)%nat)
      by (simpl in Hlen; lia).
    destruct (IH a2 Heq Hlen') as (m & -> & ->).
    exists m. by rewrite append_cons.
Qed.

(** Every URL whose last [/] comes before its last [.] is of the form
    [pre/nm.ext] of the next theorem. *)
Lemma last_slash_before_last_dot_split (url : string) :
  0 <= LastIndex url "/" < LastIndex url "." ->
  exists pre nm ext,
    url = pre +:+ "/" +:+ nm +:+ "." +:+ ext /\
    occurs "/" nm = false /\ occurs "/" ext = false /\ occurs "." ext = false.
Proof.
  intros Hlt.
  destruct (LastIndex_range "/" url) as [[_ H]|[Hslash _]]; [lia|].
  destruct (LastIndex_range "." url) as [[_ H]|[Hdot _]]; [lia|].
  destruct (occurs_split_last "/" url Hslash) as (pre & post & Hurl & Hpost).
  destruct (occurs_split_last "." url Hdot) as (a & ext & Hurl' & Hext).
  assert (Hl : LastIndex url "/" = len pre)
    by (rewrite Hurl; by apply LastIndex_last).
  assert (Hr : LastIndex url "." = len a)
    by (rewrite Hurl'; by apply LastIndex_last).
  rewrite Hl, Hr in Hlt. clear Hl Hr.
  assert (Heq : (pre +:+ "/") +:+ post = a +:+ String "." ext).
  { rewrite append_assoc. change ("/" +:+ post) with (String "/" post). congruence. }
  apply append_split in Heq as (nm & -> & ->).
  2:{ rewrite length_append. unfold len in Hlt. simpl. clear -Hlt. lia. }
  rewrite !occurs_append in Hpost.
  apply orb_false_iff in Hpost as [Hnm Hrest]. simpl in Hrest.
  exists pre, nm, ext. split; [|done].
  rewrite Hurl'. by rewrite !append_assoc.
Qed.

(** An error is returned exactly when no [.] occurs in the URL: a missing
    [/] is never reported. *)
Lemma nameFromUrl_error (url : string) :
  (exists e, nameFromUrl url = Err e) <-> occurs "." url = false.
Proof.
  unfold nameFromUrl, slice.
  destruct (LastIndex_range "/" url) as [[_ Hl]|[_ Hl]];
    destruct (LastIndex_range "." url) as [[Hd Hr]|[Hd Hr]];
    rewrite Hd;
    (replace (LastIndex url "/" + 1 =? -1) with false
       by (symmetry; apply Z.eqb_neq; lia)); cbn [orb].
  - rewrite Hr. simpl. split; eauto.
  - replace (LastIndex url "." =? -1) with false
      by (symmetry; apply Z.eqb_neq; lia).
    split; [|done]. intros [e He]. by destruct (_ && _).
  - rewrite Hr. simpl. split; eauto.
  - replace (LastIndex url "." =? -1) with false
      by (symmetry; apply Z.eqb_neq; lia).
    split; [|done]. intros [e He]. by destruct (_ && _).
Qed.

(** C7, as the code has it: a URL whose last [/] is followed later by a [.] is
    [pre/nm.ext] with no [/] in [nm] and [ext] and no [.] in [ext]; its
    derived name is [nm], the bytes after the last [/] and before the
    last [.]. *)
Theorem nameFromUrl_between_last_slash_and_last_dot (pre nm ext : string) :
  occurs "/" nm = false -> occurs "/" ext = false -> occurs "." ext = false ->
  nameFromUrl (pre +:+ "/" +:+ nm +:+ "." +:+ ext) = Ok nm.
Proof.
  intros Hnm Hext Hdot.
  destruct (LastIndex_slash_name_dot_ext pre nm ext Hnm Hext Hdot) as [Hl Hr].
  unfold nameFromUrl. rewrite Hl, Hr.
  pose proof (len_nonneg pre) as Hp. pose proof (len_nonneg nm) as Hn.
  pose proof (len_nonneg ext) as He.
  replace (len pre + 1 =? -1) with false by (symmetry; apply Z.eqb_neq; lia).
  replace (len pre + 1 + len nm =? -1) with false
    by (symmetry; apply Z.eqb_neq; lia).
  cbn [orb]. unfold slice.
  replace (0 <=? len pre + 1) with true by (symmetry; apply Z.leb_le; lia).
  replace (len pre + 1 <=? len pre + 1 + len nm) with true
    by (symmetry; apply Z.leb_le; lia).
  replace (len pre + 1 + len nm <=? len (pre +:+ "/" +:+ nm +:+ "." +:+ ext))
    with true
    by (symmetry; apply Z.leb_le; len_norm; lia).
  cbn [andb]. f_equal.
  replace (Z.to_nat (len pre + 1)) with (String.length (pre +:+ "/"))
    by (rewrite length_append; unfold len; simpl; lia).
  replace (Z.to_nat (len pre + 1 + len nm - (len pre + 1)))
    with (String.length nm) by (unfold len; lia).
  replace (pre +:+ "/" +:+ nm +:+ "." +:+ ext)
    with ((pre +:+ "/") +:+ nm +:+ "." +:+ ext)
    by (rewrite !append_assoc; reflexivity).
  apply substring_middle.
Qed.

Lemma nameFromUrl_between_last_slash_and_last_dot_witness :
  nameFromUrl "http://host/images/b737_3.jpg" = Ok "b737_3".
Proof.
  apply (nameFromUrl_between_last_slash_and_last_dot
           "http://host/images" "b737_3" "jpg"); reflexivity.
Defined.

(** C7 read to the letter does not hold: this URL contains a [/] followed later by a [.],
    and no name is derived from it. *)
Lemma nameFromUrl_slash_then_dot_counterexample :
  slashThenDot "http://host.com/noextension" /\
  forall nm, nameFromUrl "http://host.com/noextension" <> Ok nm.
Proof.
  split.
  - exists 5%nat, 11%nat. split; [lia|split; reflexivity].
  - intros nm. vm_compute. discriminate.
Qed.

(** C9: when the last [.] of a URL lies strictly before its last [/], the
    right index is below the left index and the slice expression panics:
    neither an error nor a name is returned. *)
Theorem nameFromUrl_panics_when_last_dot_before_last_slash (a b c : string) :
  occurs "." b = false -> occurs "." c = false -> occurs "/" c = false ->
  LastIndex (a +:+ "." +:+ b +:+ "/" +:+ c) "."
    < LastIndex (a +:+ "." +:+ b +:+ "/" +:+ c) "/" + 1 /\
  nameFromUrl (a +:+ "." +:+ b +:+ "/" +:+ c) = Panic.
Proof.
  intros Hb Hc Hs.
  assert (Hr : LastIndex (a +:+ "." +:+ b +:+ "/" +:+ c) "." = len a).
  { apply (LastIndex_last "." a (b +:+ "/" +:+ c)).
    rewrite occurs_append, Hb. simpl. exact Hc. }
  assert (Hl : LastIndex (a +:+ "." +:+ b +:+ "/" +:+ c) "/"
               = len a + 1 + len b).
  { replace (a +:+ "." +:+ b +:+ "/" +:+ c)
      with ((a +:+ "." +:+ b) +:+ String "/" c)
      by (rewrite !append_assoc; reflexivity).
    rewrite (LastIndex_last "/" _ c Hs).
    len_norm. lia. }
  pose proof (len_nonneg a) as Ha. pose proof (len_nonneg b) as Hlb.
  split; [rewrite Hl, Hr; lia|].
  unfold nameFromUrl. rewrite Hl, Hr.
  replace (len a + 1 + len b + 1 =? -1) with false
    by (symmetry; apply Z.eqb_neq; lia).
  replace (len a =? -1) with false by (symmetry; apply Z.eqb_neq; lia).
  cbn [orb]. unfold slice.
  replace (len a + 1 + len b + 1 <=? len a) with false
    by (symmetry; apply Z.leb_gt; lia).
  by rewrite andb_false_r.
Qed.

Lemma nameFromUrl_panics_when_last_dot_before_last_slash_witness :
  LastIndex "http://host.com/noextension" "."
    < LastIndex "http://host.com/noextension" "/" + 1 /\
  nameFromUrl "http://host.com/noextension" = Panic.
Proof.
  apply (nameFromUrl_panics_when_last_dot_before_last_slash
           "http://host" "com" "noextension"); reflexivity.
Defined.

(** C1 at a URL in which [/] is absent: the left index is 0, never -1, so
    the test for a missing [/] cannot fire and a name is returned without
    an error. *)
Theorem nameFromUrl_missing_slash_not_rejected :
  occurs "/" "b737_3.jpg" = false /\
  LastIndex "b737_3.jpg" "/" + 1 = 0 /\
  nameFromUrl "b737_3.jpg" = Ok "b737_3".
Proof. repeat split. Qed.

(** ** getJpegImgs: the loop that fills the slice is a map that stops at
    the first failure *)

Section Fetching.
Context {Response Image : Type}.
Variable env : Env Response Image.

Lemma assignAt_middle (f : (@ImageInfo Image) -> (@ImageInfo Image)) (pre : list (@ImageInfo Image)) (x : (@ImageInfo Image))
  (post : list (@ImageInfo Image)) :
  assignAt (length pre) f (pre ++ x :: post) = Ok (pre ++ f x :: post).
Proof.
  unfold assignAt. rewrite decide_True by (rewrite length_app; simpl; lia).
  f_equal. replace (length pre) with (length pre + 0)%nat by lia.
  by rewrite alter_app_r.
Qed.

Lemma getJpegImgsFrom_fetchAll (rest : list Url) (pre : list (@ImageInfo Image)) :
  getJpegImgsFrom env (length pre) rest
    (pre ++ replicate (length rest) (mkImageInfo None ""))
  = match fetchAll env rest with
    | Ok infos => Ok (pre ++ infos)
    | Err e => Err e
    | Panic => Panic
    end.
Proof.
  revert pre. induction rest as [|u rest IH]; intros pre.
  - simpl. by rewrite app_nil_r.
  - cbn [getJpegImgsFrom fetchAll length replicate]. unfold fetchAndDecode.
    destruct (http_Get env (Url_Url u)) as [resp|e]; [|reflexivity].
    destruct (jpeg_Decode env resp) as [im|e]; [|reflexivity].
    rewrite assignAt_middle. cbn [name img].
    destruct (nameFromUrl (Url_Url u)) as [nm|e|]; [|reflexivity..].
    rewrite assignAt_middle. cbn [name img].
    specialize (IH (pre ++ [mkImageInfo (Some im) nm])).
    rewrite length_app in IH. cbn [length] in IH.
    replace (length pre + 1)%nat with (S (length pre)) in IH by lia.
    rewrite <- app_assoc in IH. cbn [app] in IH. rewrite IH.
    destruct (fetchAll env rest) as [infos|e|]; [|reflexivity..].
    by rewrite <- app_assoc.
Qed.

Lemma getJpegImgs_fetchAll (urls : list Url) :
  getJpegImgs env urls = fetchAll env urls.
Proof.
  unfold getJpegImgs.
  pose proof (getJpegImgsFrom_fetchAll urls []) as H.
  cbn [length app] in H. rewrite H.
  by destruct (fetchAll env urls).
Qed.

Lemma fetchAll_Ok (urls : list Url) (infos : list (@ImageInfo Image)) :
  fetchAll env urls = Ok infos <->
  Forall2 (fun u info => fetchAndDecode env u = Ok info) urls infos.
Proof.
  revert infos. induction urls as [|u urls IH]; intros infos; simpl.
  - split.
    + intros [= <-]. constructor.
    + intros H. by inversion H.
  - split.
    + destruct (fetchAndDecode env u) as [info|e|] eqn:Hu; [|done..].
      destruct (fetchAll env urls) as [rest|e|] eqn:Hrest; [|done..].
      intros [= <-]. constructor; [exact Hu|]. by apply IH.
    + intros H. inversion H as [|? info ? rest Hu Hrest]; subst.
      rewrite Hu. apply IH in Hrest. by rewrite Hrest.
Qed.

Lemma fetchAndDecode_Ok (u : Url) (info : (@ImageInfo Image)) :
  fetchAndDecode env u = Ok info <->
  exists resp im nm,
    http_Get env (Url_Url u) = ret_ok resp /\
    jpeg_Decode env resp = ret_ok im /\
    nameFromUrl (Url_Url u) = Ok nm /\
    info = mkImageInfo (Some im) nm.
Proof.
  unfold fetchAndDecode. split.
  - destruct (http_Get env (Url_Url u)) as [resp|e] eqn:Hget; [|done].
    destruct (jpeg_Decode env resp) as [im|e] eqn:Hdec; [|done].
    destruct (nameFromUrl (Url_Url u)) as [nm|e|] eqn:Hnm; [|done..].
    intros [= <-]. by exists resp, im, nm.
  - intros (resp & im & nm & -> & -> & -> & ->). reflexivity.
Qed.

(** The names of the images are those derived from the URLs. *)
Lemma fetched_names (urls : list Url) (infos : list (@ImageInfo Image)) :
  Forall2 (fun u info => fetchAndDecode env u = Ok info) urls infos ->
  Forall2 (fun u nm => nameFromUrl (Url_Url u) = Ok nm) urls (map name infos).
Proof.
  induction 1 as [|u info urls infos Hu _ IH]; simpl; constructor; [|exact IH].
  apply fetchAndDecode_Ok in Hu as (resp & im & nm & _ & _ & Hn & ->).
  exact Hn.
Qed.

(** C10: when [getJpegImgs] succeeds, the slice it returns has the
    length of the input, and its element at position [i] holds the image
    decoded from the download of the [i]-th URL together with the name
    derived from that same URL. *)
Theorem getJpegImgs_positionwise (urls : list Url) (images : list (@ImageInfo Image)) :
  getJpegImgs env urls = Ok images ->
  length images = length urls /\
  forall (i : nat) (u : Url),
    urls !! i = Some u ->
    exists resp im nm,
      http_Get env (Url_Url u) = ret_ok resp /\
      jpeg_Decode env resp = ret_ok im /\
      nameFromUrl (Url_Url u) = Ok nm /\
      images !! i = Some (mkImageInfo (Some im) nm).
Proof.
  rewrite getJpegImgs_fetchAll, fetchAll_Ok. intros Hall. split.
  - symmetry. by eapply Forall2_length.
  - intros i u Hi.
    destruct (Forall2_lookup_l _ _ _ _ _ Hall Hi) as (info & Hinfo & Hu).
    apply fetchAndDecode_Ok in Hu as (resp & im & nm & ? & ? & ? & ->).
    by exists resp, im, nm.
Qed.

End Fetching.

Lemma getJpegImgs_positionwise_witness :
  let urls := [mkUrl "http://h/a.jpg"; mkUrl "http://h/b.jpg"] in
  let images := [mkImageInfo (Some "image of http://h/a.jpg") "a";
                 mkImageInfo (Some "image of http://h/b.jpg") "b"] in
  length images = length urls /\
  forall (i : nat) (u : Url),
    urls !! i = Some u ->
    exists resp im nm,
      http_Get (manifestEnv [] "") (Url_Url u) = ret_ok resp /\
      jpeg_Decode (manifestEnv [] "") resp = ret_ok im /\
      nameFromUrl (Url_Url u) = Ok nm /\
      images !! i = Some (mkImageInfo (Some im) nm).
Proof.
  intros urls images.
  apply (getJpegImgs_positionwise (manifestEnv [] "") urls images).
  reflexivity.
Defined.

(** ** Storing: one (reference, size) chain *)

Lemma elem_of_upsert (d doc : MongoDocument) (nm : string)
  (docs : list MongoDocument) :
  d ∈ upsert nm doc docs -> d = doc \/ d ∈ docs.
Proof.
  induction docs as [|x docs IH]; simpl.
  - intros ->%list_elem_of_singleton. by left.
  - destruct (decide (doc_Name x = nm)).
    + intros [->|H]%elem_of_cons; [by left|]. right. by apply elem_of_cons; right.
    + intros [->|H]%elem_of_cons.
      * right. by apply elem_of_cons; left.
      * destruct (IH H) as [->|H']; [by left|]. right. by apply elem_of_cons; right.
Qed.

(** The three suffixes. *)
Lemma resizedName_suffix (logicalName : string) :
  resizedName logicalName smallSize = logicalName +:+ "_320x240.jpg" /\
  resizedName logicalName mediumSize = logicalName +:+ "_384x288.jpg" /\
  resizedName logicalName largeSize = logicalName +:+ "_640x480.jpg".
Proof. repeat split. Qed.

Section Storing.
Context {Response Image : Type}.
Variable env : Env Response Image.

(** The four ways a chain can end, with the world each leaves. *)
Lemma resizeAndStoreToDB_cases (info : (@ImageInfo Image)) (size : ImageSize)
  (w : World Image) :
  resizeAndStoreToDB env info size w =
  match img info with
  | None => (Panic, w)
  | Some i =>
    let image := resize_Resize env (width size) (height size) i in
    let nm := resizedName (name info) size in
    let path := filepathPrefix +:+ nm in
    match os_Create env path with
    | Some e => (Err e, w)
    | None =>
      match jpeg_Encode env path image with
      | Some e => (Err e, afterCreate path w)
      | None =>
        match mgo_Upsert env (documentFor nm) with
        | Some e => (Err e, afterEncode path image w)
        | None =>
          (Ok tt, mkWorld (fs (afterEncode path image w))
                    (upsert nm (documentFor nm) (db w)))
        end
      end
    end
  end.
Proof.
  unfold resizeAndStoreToDB, saveImgToFile, dbUpsert, mbind, liftOut, liftErr,
    modify, resizeImg, afterEncode, afterCreate.
  destruct (img info) as [i|]; [|reflexivity]. cbn zeta.
  destruct (os_Create env _) as [e|]; [reflexivity|].
  destruct (jpeg_Encode env _ _) as [e|]; [reflexivity|].
  cbn [doc_Name documentFor].
  destruct (mgo_Upsert env _) as [e|]; reflexivity.
Qed.

(** A chain leaves the index as it was or upserts its one document. *)
Lemma resizeAndStoreToDB_db (info : (@ImageInfo Image)) (size : ImageSize) (w : World Image) :
  let nm := resizedName (name info) size in
  let r := resizeAndStoreToDB env info size w in
  (fst r = Ok tt /\ db (snd r) = upsert nm (documentFor nm) (db w)) \/
  (fst r <> Ok tt /\ db (snd r) = db w).
Proof.
  intros nm r. subst r. rewrite resizeAndStoreToDB_cases.
  destruct (img info) as [i|]; [|by right]. cbn zeta.
  destruct (os_Create env _) as [e|]; [by right|].
  destruct (jpeg_Encode env _ _) as [e|]; [by right|].
  destruct (mgo_Upsert env _) as [e|]; [by right|by left].
Qed.




(** C8: the name under which a resized image is stored and indexed is
    the logical name, an underscore, the width, an x, the height and
    .jpg, the numbers in decimal; a successful chain stores the file
    under that name (below the storage folder) and upserts the document
    of that name. *)
Theorem resized_name_construction (info : (@ImageInfo Image)) (size : ImageSize)
  (w w' : World Image) :
  size ∈ sizeSpecs ->
  resizeAndStoreToDB env info size w = (Ok tt, w') ->
  let nm := name info +:+ "_" +:+ Itoa (width size) +:+ "x"
              +:+ Itoa (height size) +:+ ".jpg" in
  resizedName (name info) size = nm /\
  (exists image, fs w' !! (filepathPrefix +:+ nm) = Some (Jpeg image)) /\
  mkMongoDocument nm ("http://localhost:7366/skyhub/" +:+ nm) ∈ db w' /\
  findDoc nm (db w') = Some (mkMongoDocument nm ("http://localhost:7366/skyhub/" +:+ nm)).
Proof.
  intros Hsize Hrun nm.
  assert (Hnm : resizedName (name info) size = nm).
  { unfold sizeSpecs in Hsize.
    repeat (apply elem_of_cons in Hsize as [->|Hsize]; [reflexivity|]).
    by apply elem_of_nil in Hsize. }
  split; [exact Hnm|].
  rewrite resizeAndStoreToDB_cases in Hrun. rewrite Hnm in Hrun.
  destruct (img info) as [i|]; [|discriminate]. cbn zeta in Hrun.
  destruct (os_Create env _) as [e|]; [discriminate|].
  destruct (jpeg_Encode env _ _) as [e|]; [discriminate|].
  destruct (mgo_Upsert env _) as [e|]; [discriminate|].
  injection Hrun as <-. cbn [fs db afterEncode].
  split; [eexists; by rewrite lookup_insert_eq|].
  change (mkMongoDocument nm ("http://localhost:7366/skyhub/" +:+ nm))
    with (documentFor nm).
  generalize (db w). intros docs. split.
  - induction docs as [|d docs IH]; simpl.
    + by apply list_elem_of_singleton.
    + destruct (decide (doc_Name d = nm)); apply elem_of_cons; auto.
  - induction docs as [|d docs IH]; simpl.
    + by rewrite decide_True.
    + destruct (decide (doc_Name d = nm)) as [Heq|Hne]; simpl.
      * by rewrite decide_True.
      * by rewrite decide_False.
Qed.

End Storing.



Lemma resized_name_construction_witness :
  let env := manifestEnv [] "" in
  let info := mkImageInfo (Some "image of http://host/images/b737_3.jpg") "b737_3" in
  let w' := snd (resizeAndStoreToDB env info smallSize emptyWorld) in
  resizedName "b737_3" smallSize = "b737_3_320x240.jpg" /\
  (exists image,
     fs w' !! "/home/edufgf/Desktop/B2W/skyhub/b737_3_320x240.jpg"
     = Some (Jpeg image)) /\
  mkMongoDocument "b737_3_320x240.jpg"
    "http://localhost:7366/skyhub/b737_3_320x240.jpg" ∈ db w' /\
  findDoc "b737_3_320x240.jpg" (db w')
  = Some (mkMongoDocument "b737_3_320x240.jpg"
            "http://localhost:7366/skyhub/b737_3_320x240.jpg").
Proof.
  intros env info w'.
  apply (resized_name_construction env info smallSize emptyWorld w').
  - apply elem_of_cons. by left.
  - reflexivity.
Defined.

(** ** The loop over the images and the whole run *)

Section Running.
Context {Response Image : Type}.
Variable env : Env Response Image.

(** [resizeAndStoreImgsToDB] runs the chains in order and stops at the
    first failure. *)
Lemma resizeAndStoreImgsToDB_runChains (images : list (@ImageInfo Image)) (w : World Image) :
  resizeAndStoreImgsToDB env images w = runChains env (chains images) w.
Proof.
  revert w. induction images as [|info images IH]; intros w; [reflexivity|].
  cbn [resizeAndStoreImgsToDB chains flat_map sizeSpecs map app runChains fst snd].
  unfold mbind.
  destruct (resizeAndStoreToDB env info smallSize w) as [[[]|e|] w1]; [|done..].
  destruct (resizeAndStoreToDB env info mediumSize w1) as [[[]|e|] w2]; [|done..].
  destruct (resizeAndStoreToDB env info largeSize w2) as [[[]|e|] w3]; [|done..].
  apply IH.
Qed.

Lemma runChains_app (before after : list ((@ImageInfo Image) * ImageSize)) (w : World Image) :
  runChains env (before ++ after) w =
  match runChains env before w with
  | (Ok _, w1) => runChains env after w1
  | other => other
  end.
Proof.
  revert w. induction before as [|c before IH]; intros w; [reflexivity|].
  cbn [app runChains]. unfold mbind.
  destruct (resizeAndStoreToDB env (fst c) (snd c) w) as [[[]|e|] w1]; [|done..].
  apply IH.
Qed.

(** How [main] can end. *)
Lemma main_cases (w : World Image) :
  (exists e, main env w = (Fatal e, w) /\
      (consumeEndpoint env EndpointAddr = ret_err e \/
       (exists urls, consumeEndpoint env EndpointAddr = ret_ok urls /\
          (getJpegImgs env urls = Err e \/
           exists images, getJpegImgs env urls = Ok images /\
             connectToDatabase env DatabaseAddr = ret_err e)))) \/
  (exists urls, consumeEndpoint env EndpointAddr = ret_ok urls /\
      getJpegImgs env urls = Panic /\ main env w = (Crashed, w)) \/
  (exists urls images,
      consumeEndpoint env EndpointAddr = ret_ok urls /\
      getJpegImgs env urls = Ok images /\
      connectToDatabase env DatabaseAddr = ret_ok tt /\
      main env w =
      match runChains env (chains images) w with
      | (Ok _, w') => (Listening, w')
      | (Err e, w') => (Fatal e, w')
      | (Panic, w') => (Crashed, w')
      end).
Proof.
  unfold main.
  destruct (consumeEndpoint env EndpointAddr) as [urls|e];
    [|left; exists e; auto].
  destruct (getJpegImgs env urls) as [images|e|] eqn:Himgs.
  - destruct (connectToDatabase env DatabaseAddr) as [[]|e] eqn:Hdb.
    + right. right. exists urls, images.
      rewrite resizeAndStoreImgsToDB_runChains.
      split; [done|]. split; [done|]. split; [done|].
      by destruct (runChains env (chains images) w) as [[?|?|] ?].
    + left. exists e. split; [done|]. right. exists urls. split; [done|].
      right. by exists images.
  - left. exists e. split; [done|]. right. exists urls. auto.
  - right. left. by exists urls.
Qed.

(** C2, as the code has it: the loops stop at the first failure.  When some
    reference of the manifest fails (to download, to decode or to derive
    a name), [getJpegImgs] returns no images and the run ends before any
    file is stored and any document is upserted: it does not reach the
    listening server and leaves the world as it was.  And when a
    (reference, size) chain fails, [resizeAndStoreImgsToDB] returns its
    error at once: the chains after it are not run. *)
Theorem first_failure_ends_the_run (w : World Image) (urls : list Url) :
  consumeEndpoint env EndpointAddr = ret_ok urls ->
  (exists u, u ∈ urls /\ referenceFails env u) ->
  (forall images, getJpegImgs env urls <> Ok images) /\
  fst (main env w) <> Listening /\
  snd (main env w) = w /\
  (forall images before c after w0 w1 w2 e,
     chains images = before ++ c :: after ->
     runChains env before w0 = (Ok tt, w1) ->
     resizeAndStoreToDB env (fst c) (snd c) w1 = (Err e, w2) ->
     resizeAndStoreImgsToDB env images w0 = (Err e, w2)).
Proof.
  intros Hurls (u & Hu & Hfails).
  assert (Hno : forall images, getJpegImgs env urls <> Ok images).
  { intros images Hok. rewrite getJpegImgs_fetchAll, fetchAll_Ok in Hok.
    apply list_elem_of_lookup in Hu as (i & Hi).
    destruct (Forall2_lookup_l _ _ _ _ _ Hok Hi) as (info & _ & Hinfo).
    by apply (Hfails info). }
  split; [exact Hno|].
  assert (Hmain : fst (main env w) <> Listening /\ snd (main env w) = w).
  { unfold main. rewrite Hurls.
    destruct (getJpegImgs env urls) as [images|e|] eqn:Himgs; [|done..].
    by destruct (Hno images). }
  split; [apply Hmain|]. split; [apply Hmain|].
  intros images before c after w0 w1 w2 e Hsplit Hbefore Hchain.
  rewrite resizeAndStoreImgsToDB_runChains, Hsplit, runChains_app, Hbefore.
  cbn [runChains]. unfold mbind. by rewrite Hchain.
Qed.

End Running.

(** C2 read to the letter does not hold: of these two references the second does not
    decode; the run ends in [log.Fatal] with an empty index, not with the
    three documents of the first reference. *)
Lemma partial_failure_isolation_counterexample :
  let env := manifestEnv ["http://h/a.jpg"; "http://h/b.jpg"] "http://h/b.jpg" in
  let urls := [mkUrl "http://h/a.jpg"; mkUrl "http://h/b.jpg"] in
  consumeEndpoint env EndpointAddr = ret_ok urls /\
  exactlyOneFails env urls /\
  main env emptyWorld
  = (Fatal (externalError "invalid JPEG format: missing SOI marker"), emptyWorld) /\
  length (db (snd (main env emptyWorld))) <> (3 * (length urls - 1))%nat.
Proof.
  intros env urls. split; [reflexivity|]. split; [|split; [reflexivity|]].
  - exists 1%nat, (mkUrl "http://h/b.jpg"). split; [reflexivity|]. split.
    + intros info. vm_compute. discriminate.
    + intros j u' Hj Hlook Hfails.
      destruct j as [|[|j]]; [|done|done].
      injection Hlook as <-.
      by apply (Hfails (mkImageInfo (Some "image of http://h/a.jpg") "a")).
  - vm_compute. discriminate.
Qed.

Lemma first_failure_ends_the_run_witness :
  let env := manifestEnv ["http://h/a.jpg"; "http://h/b.jpg"] "http://h/b.jpg" in
  let urls := [mkUrl "http://h/a.jpg"; mkUrl "http://h/b.jpg"] in
  (forall images, getJpegImgs env urls <> Ok images) /\
  fst (main env emptyWorld) <> Listening /\
  snd (main env emptyWorld) = emptyWorld /\
  (forall images before c after w0 w1 w2 e,
     chains images = before ++ c :: after ->
     runChains env before w0 = (Ok tt, w1) ->
     resizeAndStoreToDB env (fst c) (snd c) w1 = (Err e, w2) ->
     resizeAndStoreImgsToDB env images w0 = (Err e, w2)).
Proof.
  intros env urls.
  apply (first_failure_ends_the_run env emptyWorld urls).
  - reflexivity.
  - exists (mkUrl "http://h/b.jpg"). split.
    + apply elem_of_cons. right. apply elem_of_cons. by left.
    + intros info. vm_compute. discriminate.
Defined.

(** ** Upserts *)

Lemma upsert_settled (nm : string) (d : MongoDocument) (docs : list MongoDocument) :
  findDoc nm docs = Some d -> upsert nm d docs = docs.
Proof.
  induction docs as [|x docs IH]; simpl; [done|].
  destruct (decide (doc_Name x = nm)).
  - by intros [= ->].
  - intros H. by rewrite IH.
Qed.

Lemma findDoc_upsert (nm nm' : string) (d : MongoDocument)
  (docs : list MongoDocument) :
  doc_Name d = nm ->
  findDoc nm' (upsert nm d docs)
  = if decide (nm' = nm) then Some d else findDoc nm' docs.
Proof.
  intros Hd. induction docs as [|x docs IH]; simpl.
  - repeat case_decide; congruence.
  - destruct (decide (doc_Name x = nm)); simpl.
    + repeat case_decide; congruence.
    + rewrite IH. repeat case_decide; congruence.
Qed.

Lemma upsert_fresh (nm : string) (d : MongoDocument) (docs : list MongoDocument) :
  findDoc nm docs = None -> upsert nm d docs = docs ++ [d].
Proof.
  induction docs as [|x docs IH]; simpl; [done|].
  destruct (decide (doc_Name x = nm)); [done|].
  intros H. by rewrite IH.
Qed.

Lemma findDoc_app_fresh (nm : string) (d : MongoDocument)
  (docs : list MongoDocument) :
  findDoc nm docs = None -> doc_Name d <> nm -> findDoc nm (docs ++ [d]) = None.
Proof.
  intros Hdocs Hd. induction docs as [|x docs IH]; simpl in *.
  - by rewrite decide_False.
  - destruct (decide (doc_Name x = nm)); [done|]. by apply IH.
Qed.

(** Documents with pairwise distinct names, none of them in the index,
    are appended in order. *)
Lemma upsertAll_fresh (docs index : list MongoDocument) :
  NoDup (map doc_Name docs) ->
  (forall d, d ∈ docs -> findDoc (doc_Name d) index = None) ->
  upsertAll docs index = index ++ docs.
Proof.
  revert index. induction docs as [|d docs IH]; intros index Hnd Hfresh.
  - unfold upsertAll. simpl. by rewrite app_nil_r.
  - unfold upsertAll. cbn [fold_left]. fold (upsertAll docs (upsert (doc_Name d) d index)).
    cbn [map] in Hnd. apply NoDup_cons in Hnd as [Hd Hnd].
    rewrite upsert_fresh by (apply Hfresh, elem_of_cons; by left).
    rewrite IH; [by rewrite <- app_assoc|exact Hnd|].
    intros d' Hd'. apply findDoc_app_fresh.
    + apply Hfresh, elem_of_cons. by right.
    + intros Heq. apply Hd. rewrite Heq. by apply list_elem_of_fmap_2.
Qed.

(** An upsert keyed by the Name of its document creates no second
    document of a name. *)
Lemma upsert_NoDup (d : MongoDocument) (docs : list MongoDocument) :
  NoDup (map doc_Name docs) -> NoDup (map doc_Name (upsert (doc_Name d) d docs)).
Proof.
  induction docs as [|x docs IH]; simpl; intros Hnd.
  - apply NoDup_singleton.
  - apply NoDup_cons in Hnd as [Hx Hnd].
    destruct (decide (doc_Name x = doc_Name d)) as [Heq|Hne]; simpl.
    + apply NoDup_cons. split; [by rewrite <- Heq|exact Hnd].
    + apply NoDup_cons. split; [|by apply IH].
      intros (y & Hy & Hin)%list_elem_of_fmap.
      apply elem_of_upsert in Hin as [->|Hin]; [done|].
      apply Hx. rewrite Hy. by apply list_elem_of_fmap_2.
Qed.

(** ** Names of the resized images *)

Lemma append_inj_suffix (a b x y : string) :
  String.length x = String.length y -> a +:+ x = b +:+ y -> a = b /\ x = y.
Proof.
  intros Hlen. revert b. induction a as [|c a IH]; intros [|c' b] Heq.
  - done.
  - rewrite append_nil_l in Heq. subst x. rewrite append_cons in Hlen.
    simpl in Hlen. rewrite length_append in Hlen. lia.
  - rewrite append_nil_l in Heq. subst y. rewrite append_cons in Hlen.
    simpl in Hlen. rewrite length_append in Hlen. lia.
  - rewrite !append_cons in Heq. injection Heq as -> Heq.
    destruct (IH b Heq) as [-> ->]. done.
Qed.

(** Distinct (logical name, size) pairs have distinct names. *)
Lemma resizedName_inj (n n' : string) (s s' : ImageSize) :
  s ∈ sizeSpecs -> s' ∈ sizeSpecs ->
  resizedName n s = resizedName n' s' -> n = n' /\ s = s'.
Proof.
  intros Hs Hs'.
  destruct (resizedName_suffix n) as (Hn1 & Hn2 & Hn3).
  destruct (resizedName_suffix n') as (Hn1' & Hn2' & Hn3').
  unfold sizeSpecs in Hs, Hs'.
  repeat (apply elem_of_cons in Hs as [->|Hs]);
    [| | |by apply elem_of_nil in Hs];
    (repeat (apply elem_of_cons in Hs' as [->|Hs']);
       [| | |by apply elem_of_nil in Hs']);
    rewrite ?Hn1, ?Hn2, ?Hn3, ?Hn1', ?Hn2', ?Hn3';
    intros Heq; apply append_inj_suffix in Heq as [-> Heq];
      try reflexivity; try discriminate; done.
Qed.

(** ** The index after a run *)

Lemma elem_of_chains {Image : Type} (images : list (@ImageInfo Image))
  (c : @ImageInfo Image * ImageSize) :
  c ∈ chains images <-> fst c ∈ images /\ snd c ∈ sizeSpecs.
Proof.
  unfold chains. rewrite list_elem_of_In, in_flat_map. split.
  - intros (info & Hinfo & Hc). apply list_elem_of_In in Hinfo.
    apply in_map_iff in Hc as (size & <- & Hsize).
    split; [exact Hinfo|]. by apply list_elem_of_In.
  - intros [Hinfo Hsize]. exists (fst c). split; [by apply list_elem_of_In|].
    apply in_map_iff. exists (snd c). split; [by destruct c|].
    by apply list_elem_of_In.
Qed.

Lemma Forall2_names_functional (urls : list Url) (l1 l2 : list string) :
  Forall2 (fun u nm => nameFromUrl (Url_Url u) = Ok nm) urls l1 ->
  Forall2 (fun u nm => nameFromUrl (Url_Url u) = Ok nm) urls l2 ->
  l1 = l2.
Proof.
  intros H1. revert l2. induction H1 as [|u n1 urls l1 Hn1 _ IH]; intros l2 H2.
  - by inversion H2.
  - inversion H2 as [|? n2 ? l2' Hn2 Hrest]; subst.
    rewrite Hn1 in Hn2. injection Hn2 as <-. f_equal. by apply IH.
Qed.

Section Index.
Context {Response Image : Type}.
Variable env : Env Response Image.

(** A document that an upsert of its name would leave in place stays
    so through a chain, whatever the chain does. *)
Lemma chain_keeps_settled (info : (@ImageInfo Image)) (size : ImageSize) (w : World Image)
  (nm : string) :
  findDoc nm (db w) = Some (documentFor nm) ->
  findDoc nm (db (snd (resizeAndStoreToDB env info size w)))
  = Some (documentFor nm).
Proof.
  intros Hnm.
  destruct (resizeAndStoreToDB_db env info size w) as [[_ ->]|[_ ->]];
    [|exact Hnm].
  rewrite findDoc_upsert by reflexivity.
  case_decide as Heq; [by rewrite Heq|exact Hnm].
Qed.

Lemma runChains_keeps_settled (cs : list ((@ImageInfo Image) * ImageSize)) (w : World Image)
  (nm : string) :
  findDoc nm (db w) = Some (documentFor nm) ->
  findDoc nm (db (snd (runChains env cs w))) = Some (documentFor nm).
Proof.
  revert w. induction cs as [|c cs IH]; intros w Hnm; [exact Hnm|].
  cbn [runChains]. unfold mbind.
  pose proof (chain_keeps_settled (fst c) (snd c) w nm Hnm) as H1.
  destruct (resizeAndStoreToDB env (fst c) (snd c) w) as [[[]|e|] w1];
    [by apply IH|exact H1..].
Qed.

(** After a successful sequence of chains every document of a chain is
    the first of its name in the index. *)
Lemma runChains_settles (cs : list ((@ImageInfo Image) * ImageSize)) (w w' : World Image) :
  runChains env cs w = (Ok tt, w') ->
  forall c, c ∈ cs ->
    findDoc (resizedName (name (fst c)) (snd c)) (db w')
    = Some (documentFor (resizedName (name (fst c)) (snd c))).
Proof.
  revert w. induction cs as [|c cs IH]; intros w Hrun c' Hc'.
  - by apply elem_of_nil in Hc'.
  - cbn [runChains] in Hrun. unfold mbind in Hrun.
    destruct (resizeAndStoreToDB_db env (fst c) (snd c) w) as [[Hok Hdb]|[Hno _]].
    2:{ destruct (resizeAndStoreToDB env (fst c) (snd c) w) as [[[]|e|] w1];
          [by destruct Hno|done..]. }
    destruct (resizeAndStoreToDB env (fst c) (snd c) w) as [[[]|e|] w1];
      [|done..].
    cbn [snd] in Hdb.
    apply elem_of_cons in Hc' as [->|Hc']; [|by apply (IH w1)].
    replace w' with (snd (runChains env cs w1)) by (by rewrite Hrun).
    apply runChains_keeps_settled. rewrite Hdb.
    rewrite findDoc_upsert by reflexivity. by rewrite decide_True.
Qed.

(** Chains whose documents are all in place leave the index as it is,
    whether they succeed or fail. *)
Lemma runChains_idle (cs : list ((@ImageInfo Image) * ImageSize)) (w : World Image) :
  (forall c, c ∈ cs ->
     findDoc (resizedName (name (fst c)) (snd c)) (db w)
     = Some (documentFor (resizedName (name (fst c)) (snd c)))) ->
  db (snd (runChains env cs w)) = db w.
Proof.
  revert w. induction cs as [|c cs IH]; intros w Hall; [reflexivity|].
  cbn [runChains]. unfold mbind.
  assert (Hdb : db (snd (resizeAndStoreToDB env (fst c) (snd c) w)) = db w).
  { destruct (resizeAndStoreToDB_db env (fst c) (snd c) w) as [[_ ->]|[_ ->]];
      [|reflexivity].
    apply upsert_settled, Hall, elem_of_cons. by left. }
  destruct (resizeAndStoreToDB env (fst c) (snd c) w) as [[[]|e|] w1];
    [|exact Hdb..].
  cbn [snd] in Hdb. rewrite IH; [exact Hdb|].
  intros c' Hc'. rewrite Hdb. apply Hall, elem_of_cons. by right.
Qed.

(** The index after a successful sequence of chains: one upsert per
    chain, in order. *)
Lemma runChains_upserts (cs : list ((@ImageInfo Image) * ImageSize)) (w w' : World Image) :
  runChains env cs w = (Ok tt, w') ->
  db w' = upsertAll
            (map (fun c => documentFor (resizedName (name (fst c)) (snd c))) cs)
            (db w).
Proof.
  revert w. induction cs as [|c cs IH]; intros w Hrun.
  - by injection Hrun as <-.
  - cbn [runChains] in Hrun. unfold mbind in Hrun.
    destruct (resizeAndStoreToDB_db env (fst c) (snd c) w) as [[Hok Hdb]|[Hno _]].
    2:{ destruct (resizeAndStoreToDB env (fst c) (snd c) w) as [[[]|e|] w1];
          [by destruct Hno|done..]. }
    destruct (resizeAndStoreToDB env (fst c) (snd c) w) as [[[]|e|] w1];
      [|done..].
    cbn [snd] in Hdb. rewrite (IH w1 Hrun), Hdb. reflexivity.
Qed.

(** Whether a chain succeeds depends on the answers from outside only,
    and what it does to the index depends on the index only. *)
Lemma chain_status (info : (@ImageInfo Image)) (size : ImageSize) (w v : World Image) :
  fst (resizeAndStoreToDB env info size w)
  = fst (resizeAndStoreToDB env info size v).
Proof.
  rewrite !resizeAndStoreToDB_cases.
  destruct (img info) as [i|]; [|done]. cbn zeta.
  destruct (os_Create env _) as [e|]; [done|].
  destruct (jpeg_Encode env _ _) as [e|]; [done|].
  by destruct (mgo_Upsert env _) as [e|].
Qed.

Lemma chain_db_congr (info : (@ImageInfo Image)) (size : ImageSize) (w v : World Image) :
  db w = db v ->
  db (snd (resizeAndStoreToDB env info size w))
  = db (snd (resizeAndStoreToDB env info size v)).
Proof.
  intros Hdb. rewrite !resizeAndStoreToDB_cases.
  destruct (img info) as [i|]; [|done]. cbn zeta.
  destruct (os_Create env _) as [e|]; [done|].
  destruct (jpeg_Encode env _ _) as [e|]; [done|].
  destruct (mgo_Upsert env _) as [e|]; [done|].
  cbn [snd db]. by rewrite Hdb.
Qed.

Lemma runChains_cons (c : (@ImageInfo Image) * ImageSize) (cs : list ((@ImageInfo Image) * ImageSize))
  (w : World Image) :
  runChains env (c :: cs) w =
  match resizeAndStoreToDB env (fst c) (snd c) w with
  | (Ok _, w1) => runChains env cs w1
  | (Err e, w1) => (Err e, w1)
  | (Panic, w1) => (Panic, w1)
  end.
Proof. reflexivity. Qed.

Lemma runChains_db_congr (cs : list ((@ImageInfo Image) * ImageSize)) (w v : World Image) :
  db w = db v ->
  db (snd (runChains env cs w)) = db (snd (runChains env cs v)).
Proof.
  revert w v. induction cs as [|c cs IH]; intros w v Hdb; [exact Hdb|].
  rewrite !runChains_cons.
  pose proof (chain_status (fst c) (snd c) w v) as Hfst.
  pose proof (chain_db_congr (fst c) (snd c) w v Hdb) as Hsnd.
  destruct (resizeAndStoreToDB env (fst c) (snd c) w) as [r1 w1].
  destruct (resizeAndStoreToDB env (fst c) (snd c) v) as [r2 v1].
  cbn [fst snd] in Hfst, Hsnd. subst r2.
  destruct r1 as [[]|e|]; [by apply IH|exact Hsnd..].
Qed.

(** Running the same chains again, with the same answers from outside,
    leaves the index as the first pass left it. *)
Lemma runChains_twice (cs : list ((@ImageInfo Image) * ImageSize)) (w : World Image) :
  db (snd (runChains env cs (snd (runChains env cs w))))
  = db (snd (runChains env cs w)).
Proof.
  revert w. induction cs as [|c cs IH]; intros w; [reflexivity|].
  rewrite (runChains_cons c cs w).
  pose proof (resizeAndStoreToDB_db env (fst c) (snd c) w) as Hfirst.
  destruct (resizeAndStoreToDB env (fst c) (snd c) w) as [r w1] eqn:Hc.
  cbn [fst snd] in Hfirst.
  assert (Hagain : forall v,
             fst (resizeAndStoreToDB env (fst c) (snd c) v) = r).
  { intros v. rewrite (chain_status (fst c) (snd c) v w). by rewrite Hc. }
  destruct Hfirst as [[-> Hdb]|[Hno Hdb]].
  - set (w' := snd (runChains env cs w1)).
    assert (Hset : findDoc (resizedName (name (fst c)) (snd c)) (db w')
                   = Some (documentFor (resizedName (name (fst c)) (snd c)))).
    { apply runChains_keeps_settled. rewrite Hdb.
      rewrite findDoc_upsert by reflexivity. by rewrite decide_True. }
    rewrite (runChains_cons c cs w').
    pose proof (resizeAndStoreToDB_db env (fst c) (snd c) w') as Hsecond.
    specialize (Hagain w').
    destruct (resizeAndStoreToDB env (fst c) (snd c) w') as [r2 w2].
    cbn [fst snd] in Hsecond, Hagain. subst r2.
    destruct Hsecond as [[_ Hdb2]|[Hno _]]; [|done].
    rewrite (upsert_settled _ _ _ Hset) in Hdb2.
    rewrite (runChains_db_congr cs w2 w' Hdb2). apply IH.
  - assert (Hw1 : snd (match r with
                       | Ok _ => runChains env cs w1
                       | Err e => (Err e, w1)
                       | Panic => (Panic, w1)
                       end) = w1)
      by (destruct r as [[]|e|]; done).
    rewrite Hw1. rewrite (runChains_cons c cs w1).
    pose proof (resizeAndStoreToDB_db env (fst c) (snd c) w1) as Hsecond.
    specialize (Hagain w1).
    destruct (resizeAndStoreToDB env (fst c) (snd c) w1) as [r2 w2].
    cbn [fst snd] in Hsecond, Hagain. subst r2.
    destruct Hsecond as [[Hok _]|[_ Hdb2]]; [done|].
    destruct r as [[]|e|]; [done|exact Hdb2..].
Qed.

(** A second run with the same answers from outside leaves the index as
    the first run left it. *)
Lemma main_twice (w : World Image) :
  db (snd (main env (snd (main env w)))) = db (snd (main env w)).
Proof.
  destruct (main_cases env w) as [(e & H & _)|[(urls & _ & _ & H)|
    (urls & images & Hurls & Himgs & Hdial & H)]].
  - rewrite H. cbn [snd]. by rewrite H.
  - rewrite H. cbn [snd]. by rewrite H.
  - assert (Hshape : forall v,
               db (snd (main env v)) = db (snd (runChains env (chains images) v))).
    { intros v. unfold main. rewrite Hurls, Himgs, Hdial.
      rewrite resizeAndStoreImgsToDB_runChains.
      by destruct (runChains env (chains images) v) as [[?|?|] ?]. }
    rewrite !Hshape.
    rewrite (runChains_db_congr (chains images) (snd (main env w))
               (snd (runChains env (chains images) w))).
    + apply runChains_twice.
    + apply Hshape.
Qed.

(** No chain creates a second document of a name. *)
Lemma runChains_NoDup (cs : list ((@ImageInfo Image) * ImageSize)) (w : World Image) :
  NoDup (map doc_Name (db w)) ->
  NoDup (map doc_Name (db (snd (runChains env cs w)))).
Proof.
  revert w. induction cs as [|c cs IH]; intros w Hnd; [exact Hnd|].
  cbn [runChains]. unfold mbind.
  assert (H1 : NoDup (map doc_Name
                        (db (snd (resizeAndStoreToDB env (fst c) (snd c) w))))).
  { destruct (resizeAndStoreToDB_db env (fst c) (snd c) w) as [[_ ->]|[_ ->]];
      [|exact Hnd].
    by apply (upsert_NoDup (documentFor _)). }
  destruct (resizeAndStoreToDB env (fst c) (snd c) w) as [[[]|e|] w1];
    [by apply IH|exact H1..].
Qed.

Lemma main_NoDup (w : World Image) :
  NoDup (map doc_Name (db w)) -> NoDup (map doc_Name (db (snd (main env w)))).
Proof.
  intros Hw.
  destruct (main_cases env w) as [(e & -> & _)|[(urls & _ & _ & ->)|
    (urls & images & _ & _ & _ & ->)]]; [exact Hw..|].
  pose proof (runChains_NoDup (chains images) w Hw) as H.
  by destruct (runChains env (chains images) w) as [[?|?|] ?].
Qed.

(** A run that reaches the listening server has fetched every image and
    run every chain. *)
Lemma main_Listening (w : World Image) :
  fst (main env w) = Listening ->
  exists urls images,
    consumeEndpoint env EndpointAddr = ret_ok urls /\
    fetchAll env urls = Ok images /\
    runChains env (chains images) w = (Ok tt, snd (main env w)).
Proof.
  intros Hmain.
  destruct (main_cases env w) as [(e & H & _)|[(urls & _ & _ & H)|
    (urls & images & Hurls & Himgs & _ & H)]];
    rewrite H in Hmain |- *; [done..|].
  exists urls, images. rewrite <- getJpegImgs_fetchAll.
  split; [exact Hurls|]. split; [exact Himgs|].
  by destruct (runChains env (chains images) w) as [[[]|?|] ?].
Qed.

End Index.

Section Rerun.
Context {Response Image : Type}.
Variables env1 env2 : Env Response Image.

(** C4: a second run on the same manifest leaves the index exactly as
    the first run left it (the same documents in the same order, hence
    the same names, each with its address, and no new row).  This holds
    when the first run has succeeded, whatever else the outside answers
    the second time, and it holds when the outside answers the second
    time as it did the first time.  And a run creates no second document
    of a name. *)
Theorem rerun_leaves_index_unchanged (w0 : World Image) :
  consumeEndpoint env2 EndpointAddr = consumeEndpoint env1 EndpointAddr ->
  fst (main env1 w0) = Listening \/ env2 = env1 ->
  let w1 := snd (main env1 w0) in
  let w2 := snd (main env2 w1) in
  db w2 = db w1 /\
  map doc_Name (db w2) = map doc_Name (db w1) /\
  length (db w2) = length (db w1) /\
  (NoDup (map doc_Name (db w0)) -> NoDup (map doc_Name (db w2))).
Proof.
  intros Hsame Hfirst w1 w2.
  assert (Hdb : db w2 = db w1).
  { destruct Hfirst as [Hfirst| ->]; [|apply main_twice].
    destruct (main_Listening env1 w0 Hfirst) as (urls & images1 & Hurls & Himgs1 & Hrun1).
    fold w1 in Hrun1. subst w2.
    destruct (main_cases env2 w1) as [(e & -> & _)|[(urls2 & _ & _ & ->)|
      (urls2 & images2 & Hurls2 & Himgs2 & _ & ->)]]; [reflexivity..|].
    rewrite Hsame, Hurls in Hurls2. injection Hurls2 as <-.
    rewrite getJpegImgs_fetchAll in Himgs2.
    assert (Hnames : map name images2 = map name images1).
    { apply (Forall2_names_functional urls).
      - by apply (fetched_names env2), fetchAll_Ok.
      - by apply (fetched_names env1), fetchAll_Ok. }
    assert (Hidle : db (snd (runChains env2 (chains images2) w1)) = db w1).
    { apply runChains_idle. intros c [Hinfo Hsize]%elem_of_chains.
      assert (Hin : name (fst c) ∈ map name images1).
      { rewrite <- Hnames. by apply list_elem_of_fmap_2. }
      apply list_elem_of_fmap in Hin as (info1 & Hname & Hinfo1).
      rewrite Hname.
      apply (runChains_settles env1 (chains images1) w0 w1 Hrun1 (info1, snd c)).
      by apply elem_of_chains. }
    by destruct (runChains env2 (chains images2) w1) as [[?|?|] ?]. }
  split; [exact Hdb|]. rewrite Hdb. split; [reflexivity|]. split; [reflexivity|].
  intros Hnd. by apply main_NoDup.
Qed.

End Rerun.

Lemma rerun_leaves_index_unchanged_witness :
  let env := manifestEnv ["http://h/a.jpg"; "http://h/b.jpg"] "" in
  let w1 := snd (main env emptyWorld) in
  let w2 := snd (main env w1) in
  db w2 = db w1 /\
  map doc_Name (db w2) = map doc_Name (db w1) /\
  length (db w2) = length (db w1) /\
  (NoDup (map doc_Name (db emptyWorld)) -> NoDup (map doc_Name (db w2))).
Proof.
  intros env.
  apply (rerun_leaves_index_unchanged env env emptyWorld);
    [reflexivity|left; reflexivity].
Defined.

Section FanOut.
Context {Response Image : Type}.
Variable env : Env Response Image.

Lemma chain_documents (images : list (@ImageInfo Image)) :
  map (fun c => documentFor (resizedName (name (fst c)) (snd c))) (chains images)
  = flat_map recordsOf (map name images).
Proof.
  induction images as [|info images IH]; [reflexivity|].
  cbn [chains flat_map map]. unfold chains in IH.
  rewrite map_app, IH. reflexivity.
Qed.

Lemma elem_of_records (d : MongoDocument) (names : list string) :
  d ∈ flat_map recordsOf names <->
  exists nm size,
    nm ∈ names /\ size ∈ sizeSpecs /\ d = documentFor (resizedName nm size).
Proof.
  rewrite list_elem_of_In, in_flat_map. split.
  - intros (nm & Hnm & Hd). apply in_map_iff in Hd as (size & <- & Hsize).
    exists nm, size. by rewrite !list_elem_of_In.
  - intros (nm & size & Hnm & Hsize & ->). exists nm.
    split; [by apply list_elem_of_In|].
    apply in_map_iff. exists size. split; [reflexivity|by apply list_elem_of_In].
Qed.

Lemma records_NoDup (names : list string) :
  NoDup names -> NoDup (map doc_Name (flat_map recordsOf names)).
Proof.
  induction 1 as [|nm names Hnm Hnd IH]; [constructor|].
  cbn [flat_map]. rewrite map_app. apply NoDup_app. split; [|split; [|exact IH]].
  - destruct (resizedName_suffix nm) as (H1 & H2 & H3).
    cbn. rewrite H1, H2, H3.
    repeat (apply NoDup_cons; split;
            [rewrite ?elem_of_cons, elem_of_nil;
             intros H; repeat destruct H as [H|H]; try done;
             apply append_inj_suffix in H as [_ H]; done|]).
    constructor.
  - intros x Hx (d & -> & Hd)%list_elem_of_fmap.
    apply elem_of_records in Hd as (nm' & size' & Hnm' & Hsize' & ->).
    apply list_elem_of_fmap in Hx as (d0 & Hd0 & Hin).
    apply (elem_of_records d0 [nm]) in Hin as (nm0 & size0 & Hnm0 & Hsize0 & ->).
    apply list_elem_of_singleton in Hnm0 as ->.
    cbn [doc_Name documentFor] in Hd0. symmetry in Hd0.
    apply resizedName_inj in Hd0 as [-> _]; done.
Qed.

Lemma records_length (names : list string) :
  length (flat_map recordsOf names) = (3 * length names)%nat.
Proof. induction names as [|nm names IH]; simpl; lia. Qed.

(** C6, as the code has it: a fully successful run on a manifest of N references
    whose logical names are pairwise distinct, started on an index that
    holds none of the names to be written, appends to the index exactly
    the 3N documents of the (reference, size) pairs, in order: one per
    reference and per size 320x240, 384x288, 640x480. *)
Theorem fan_out_count (w : World Image) (urls : list Url) (names : list string) :
  consumeEndpoint env EndpointAddr = ret_ok urls ->
  fst (main env w) = Listening ->
  Forall2 (fun u nm => nameFromUrl (Url_Url u) = Ok nm) urls names ->
  NoDup names ->
  (forall nm size,
     nm ∈ names -> size ∈ sizeSpecs ->
     findDoc (resizedName nm size) (db w) = None) ->
  db (snd (main env w)) = db w ++ flat_map recordsOf names /\
  length (db (snd (main env w))) = (length (db w) + 3 * length urls)%nat /\
  sizeSpecs = [mkImageSize 320 240; mkImageSize 384 288; mkImageSize 640 480].
Proof.
  intros Hurls Hmain Hnames Hnd Hfresh.
  destruct (main_Listening env w Hmain) as (urls' & images & Hurls' & Himgs & Hrun).
  rewrite Hurls in Hurls'. injection Hurls' as <-.
  assert (Heq : map name images = names).
  { apply (Forall2_names_functional urls); [|exact Hnames].
    by apply (fetched_names env), fetchAll_Ok. }
  apply runChains_upserts in Hrun. rewrite chain_documents, Heq in Hrun.
  rewrite upsertAll_fresh in Hrun.
  - split; [exact Hrun|]. split; [|reflexivity].
    rewrite Hrun, length_app, records_length.
    by rewrite (Forall2_length _ _ _ Hnames).
  - by apply records_NoDup.
  - intros d (nm & size & Hnm & Hsize & ->)%elem_of_records.
    by apply Hfresh.
Qed.

End FanOut.

Lemma fan_out_count_witness :
  let env := manifestEnv ["http://h/a.jpg"; "http://h/b.jpg"] "" in
  db (snd (main env emptyWorld)) = db emptyWorld ++ flat_map recordsOf ["a"; "b"] /\
  length (db (snd (main env emptyWorld)))
  = (length (db emptyWorld)
     + 3 * length [mkUrl "http://h/a.jpg"; mkUrl "http://h/b.jpg"])%nat /\
  sizeSpecs = [mkImageSize 320 240; mkImageSize 384 288; mkImageSize 640 480].
Proof.
  intros env.
  apply (fan_out_count env emptyWorld
           [mkUrl "http://h/a.jpg"; mkUrl "http://h/b.jpg"] ["a"; "b"]).
  - reflexivity.
  - reflexivity.
  - repeat constructor.
  - repeat constructor; rewrite ?elem_of_cons, elem_of_nil; intros H;
      repeat destruct H as [H|H]; done.
  - reflexivity.
Defined.

(** C6 read to the letter does not hold: the manifest lists the same image twice, every
    step succeeds, and the index holds three documents, not six. *)
Lemma fan_out_duplicate_names_counterexample :
  let env := manifestEnv ["http://h/a.jpg"; "http://h/a.jpg"] "" in
  let urls := [mkUrl "http://h/a.jpg"; mkUrl "http://h/a.jpg"] in
  consumeEndpoint env EndpointAddr = ret_ok urls /\
  Forall (fun u => exists info, fetchAndDecode env u = Ok info) urls /\
  fst (main env emptyWorld) = Listening /\
  length (db (snd (main env emptyWorld))) = 3%nat /\
  length (db (snd (main env emptyWorld))) <> (3 * length urls)%nat.
Proof.
  intros env urls. split; [reflexivity|]. split.
  - repeat constructor; eexists; reflexivity.
  - split; [reflexivity|]. split; [reflexivity|]. vm_compute. discriminate.
Qed.

(** ** consumeEndpoint *)

Lemma saveError_is_Some (saved : option error) (e : error) :
  is_Some (saveError saved e).
Proof. destruct saved; simpl; eauto. Qed.

Lemma unmarshalString_error (v : JSON) (cur : string) (saved : option error) :
  is_Some (snd (unmarshalString v cur saved))
  <-> is_Some saved \/ isStringOrNull v = false.
Proof.
  destruct v; simpl; try (split; [by right|intros _; apply saveError_is_Some]);
    split; try tauto; intros [H|H]; done.
Qed.

Lemma unmarshalUrl_error (v : JSON) (cur : Url) (saved : option error) :
  is_Some (snd (unmarshalUrl v cur saved))
  <-> is_Some saved \/ urlConflict v = true.
Proof.
  destruct v as [| | | | |members]; simpl;
    try (split; [by right|intros _; apply saveError_is_Some]).
  - split; [tauto|]. intros [H|H]; done.
  - revert cur saved. induction members as [|m members IH]; intros cur saved.
    + simpl. split; [tauto|]. intros [H|H]; done.
    + cbn [fold_left existsb]. destruct (fieldMatches "Url" (fst m)).
      * rewrite IH. cbn [snd andb]. rewrite unmarshalString_error.
        rewrite orb_true_iff, negb_true_iff. tauto.
      * rewrite IH. cbn [andb orb]. reflexivity.
Qed.

Lemma unmarshalUrlElems_error (elems : list JSON) (backing : list Url)
  (saved : option error) :
  is_Some (snd (unmarshalUrlElems elems backing saved))
  <-> is_Some saved \/ existsb urlConflict elems = true.
Proof.
  revert backing saved.
  induction elems as [|x elems IH]; intros backing saved.
  - simpl. split; [tauto|]. intros [H|H]; done.
  - cbn [unmarshalUrlElems existsb snd]. rewrite IH.
    rewrite unmarshalUrl_error, orb_true_iff. tauto.
Qed.

Lemma unmarshalUrls_error (v : JSON) (cur : UrlSlice) (saved : option error) :
  is_Some (snd (unmarshalUrls v cur saved))
  <-> is_Some saved \/ urlsConflict v = true.
Proof.
  destruct v as [| | | |elems|]; simpl;
    try (split; [by right|intros _; apply saveError_is_Some]).
  - split; [tauto|]. intros [H|H]; done.
  - destruct elems as [|x elems].
    + simpl. split; [tauto|]. intros [H|H]; done.
    + cbn [snd]. apply unmarshalUrlElems_error.
Qed.

(** [Unmarshal] reports a type error exactly for the values with a type
    conflict. *)
Lemma unmarshalSkyhubResponse_error (v : JSON) (cur : SkyhubResponse)
  (saved : option error) :
  is_Some (snd (unmarshalSkyhubResponse v cur saved))
  <-> is_Some saved \/ typeConflict v = true.
Proof.
  destruct v as [| | | | |members]; simpl;
    try (split; [by right|intros _; apply saveError_is_Some]).
  - split; [tauto|]. intros [H|H]; done.
  - revert cur saved. induction members as [|m members IH]; intros cur saved.
    + simpl. split; [tauto|]. intros [H|H]; done.
    + cbn [fold_left existsb]. destruct (fieldMatches "Images" (fst m)).
      * rewrite IH. cbn [snd andb]. rewrite unmarshalUrls_error.
        rewrite orb_true_iff. tauto.
      * rewrite IH. cbn [andb orb]. reflexivity.
Qed.

(** The errors [Unmarshal] keeps are type errors. *)
Lemma saveError_type (saved : option error) (kind : string) :
  (forall e, saved = Some e -> exists k, e = UnmarshalTypeError k) ->
  forall e, saveError saved (UnmarshalTypeError kind) = Some e ->
    exists k, e = UnmarshalTypeError k.
Proof. intros H e. destruct saved; simpl; [apply H|intros [= <-]; eauto]. Qed.

Lemma unmarshalUrl_type (v : JSON) (cur : Url) (saved : option error) :
  (forall e, saved = Some e -> exists k, e = UnmarshalTypeError k) ->
  forall e, snd (unmarshalUrl v cur saved) = Some e ->
    exists k, e = UnmarshalTypeError k.
Proof.
  destruct v as [| | | | |members]; simpl; intros Hs;
    try (by apply saveError_type); [exact Hs|].
  revert cur saved Hs. induction members as [|m members IH]; intros cur saved Hs.
  - exact Hs.
  - cbn [fold_left]. destruct (fieldMatches "Url" (fst m)); [|by apply IH].
    apply IH. cbn [snd]. destruct (snd m); simpl;
      try (by apply saveError_type); exact Hs.
Qed.

Lemma unmarshalUrlElems_type (elems : list JSON) (backing : list Url)
  (saved : option error) :
  (forall e, saved = Some e -> exists k, e = UnmarshalTypeError k) ->
  forall e, snd (unmarshalUrlElems elems backing saved) = Some e ->
    exists k, e = UnmarshalTypeError k.
Proof.
  revert backing saved.
  induction elems as [|x elems IH]; intros backing saved Hs.
  - exact Hs.
  - cbn [unmarshalUrlElems snd]. apply IH. by apply unmarshalUrl_type.
Qed.

Lemma unmarshalUrls_type (v : JSON) (cur : UrlSlice) (saved : option error) :
  (forall e, saved = Some e -> exists k, e = UnmarshalTypeError k) ->
  forall e, snd (unmarshalUrls v cur saved) = Some e ->
    exists k, e = UnmarshalTypeError k.
Proof.
  destruct v as [| | | |elems|]; simpl; intros Hs;
    try (by apply saveError_type); [exact Hs|].
  destruct elems as [|x elems]; [exact Hs|].
  cbn [snd]. by apply unmarshalUrlElems_type.
Qed.

Lemma unmarshalSkyhubResponse_type (v : JSON) (cur : SkyhubResponse)
  (saved : option error) :
  (forall e, saved = Some e -> exists k, e = UnmarshalTypeError k) ->
  forall e, snd (unmarshalSkyhubResponse v cur saved) = Some e ->
    exists k, e = UnmarshalTypeError k.
Proof.
  destruct v as [| | | | |members]; simpl; intros Hs;
    try (by apply saveError_type); [exact Hs|].
  revert cur saved Hs. induction members as [|m members IH]; intros cur saved Hs.
  - exact Hs.
  - cbn [fold_left]. destruct (fieldMatches "Images" (fst m)); [|by apply IH].
    apply IH. cbn [snd]. by apply unmarshalUrls_type.
Qed.

(** The elements of a manifest of the expected shape set their [Url],
    whatever the slice held before. *)
Lemma unmarshalUrlElems_manifest (urls : list string) (backing : list Url) :
  unmarshalUrlElems (map (fun u => JObject [("Url", JString u)]) urls)
    backing None
  = (map mkUrl urls, drop (length urls) backing, None).
Proof.
  revert backing. induction urls as [|u urls IH]; intros backing.
  - reflexivity.
  - cbn [map unmarshalUrlElems]. cbn [unmarshalUrl fold_left fst snd].
    change (fieldMatches "Url" "Url") with true. cbn iota.
    cbn [unmarshalString fst snd]. rewrite IH. cbn [fst snd length].
    destruct backing as [|b backing]; [|reflexivity].
    cbn [tail drop]. by rewrite drop_nil.
Qed.

(** A manifest of the expected shape decodes to its URLs, in order. *)
Lemma unmarshal_manifestValue (urls : list string) (cur : SkyhubResponse) :
  slice_elems (Images (fst (unmarshalSkyhubResponse (manifestValue urls) cur
                              None))) = map mkUrl urls /\
  snd (unmarshalSkyhubResponse (manifestValue urls) cur None) = None.
Proof.
  unfold manifestValue. cbn [unmarshalSkyhubResponse fold_left fst snd].
  change (fieldMatches "Images" "Images") with true. cbn iota.
  destruct urls as [|u urls]; [by split|].
  pose proof (unmarshalUrlElems_manifest (u :: urls)
                (slice_elems (Images cur) ++ slice_spare (Images cur))) as H.
  cbn [map] in H. cbn [map unmarshalUrls]. rewrite H. by split.
Qed.

(** A body with no member that designates Images leaves the target as it
    is. *)
Lemma unmarshalSkyhubResponse_lacks_Images (members : list (string * JSON))
  (cur : SkyhubResponse) (saved : option error) :
  Forall (fun m => fieldMatches "Images" (fst m) = false) members ->
  unmarshalSkyhubResponse (JObject members) cur saved = (cur, saved).
Proof.
  cbn [unmarshalSkyhubResponse]. revert cur saved.
  induction members as [|m members IH]; intros cur saved Hm; [reflexivity|].
  inversion Hm as [|? ? Hhd Htl]; subst. cbn [fold_left]. rewrite Hhd.
  by apply IH.
Qed.

(** A key may occur more than once, and every occurrence is decoded into
    the same slice: an element of a later array starts from what the
    slice holds at its place, also behind its current length.  Here
    Images comes three times, with the elements a and b, then with one
    empty object, then with two; the result holds a and b. *)
Example unmarshal_repeated_Images :
  let a := JObject [("Url", JString "a")] in
  let b := JObject [("Url", JString "b")] in
  let v := JObject [("Images", JArray [a; b]);
                    ("Images", JArray [JObject []]);
                    ("images", JArray [JObject []; JObject []])] in
  unmarshalSkyhubResponse v (mkSkyhubResponse (mkUrlSlice [] [])) None
  = (mkSkyhubResponse (mkUrlSlice [mkUrl "a"; mkUrl "b"] []), None) /\
  unmarshalSkyhubResponse
    (JObject [("Images", JArray [a; b]); ("Images", JArray [JObject []])])
    (mkSkyhubResponse (mkUrlSlice [] [])) None
  = (mkSkyhubResponse (mkUrlSlice [mkUrl "a"] [mkUrl "b"]), None) /\
  unmarshalSkyhubResponse
    (JObject [("Images", JArray [a; b]); ("Images", JArray [])])
    (mkSkyhubResponse (mkUrlSlice [] [])) None
  = (mkSkyhubResponse (mkUrlSlice [] []), None).
Proof. intros a b v. split; [|split]; reflexivity. Qed.

Section Manifest.
Context {Response Image : Type}.
Variable env : Env Response Image.

(** C5, as the code has it: [consumeEndpoint] fails when the retrieval fails, when
    the body cannot be read, when the body is not valid JSON, and when
    the value of the body has a type conflict with the target (the value
    itself is neither an object nor null, a member Images is neither an
    array nor null, an element of it is neither an object nor null, a
    member Url is neither a string nor null).  For every other body it
    returns the decoded sequence without an error: the URLs in order for
    a body of the expected shape, and the empty sequence for every body
    that has no Images at all: null, and an object none of whose keys
    designates Images. *)
Theorem consumeEndpoint_outcomes (endpoint : string) :
  (forall e,
     http_Get env endpoint = ret_err e ->
     consumeEndpoint env endpoint = ret_err e) /\
  (forall resp e,
     http_Get env endpoint = ret_ok resp ->
     ioutil_ReadAll env resp = ret_err e ->
     consumeEndpoint env endpoint = ret_err e) /\
  (forall resp body,
     http_Get env endpoint = ret_ok resp ->
     ioutil_ReadAll env resp = ret_ok body ->
     (json_value env body = None ->
      consumeEndpoint env endpoint = ret_err SyntaxError) /\
     (forall v,
        json_value env body = Some v ->
        (typeConflict v = true ->
         exists kind,
           consumeEndpoint env endpoint = ret_err (UnmarshalTypeError kind)) /\
        (typeConflict v = false ->
         consumeEndpoint env endpoint
         = ret_ok (slice_elems
                     (Images (fst (unmarshalSkyhubResponse v
                                     (mkSkyhubResponse (mkUrlSlice [] []))
                                     None))))) /\
        (forall urls,
           v = manifestValue urls ->
           consumeEndpoint env endpoint = ret_ok (map mkUrl urls)) /\
        (v = JNull \/
         (exists members,
            v = JObject members /\
            Forall (fun m => fieldMatches "Images" (fst m) = false) members) ->
         consumeEndpoint env endpoint = ret_ok []))).
Proof.
  split; [|split].
  - intros e Hget. unfold consumeEndpoint. by rewrite Hget.
  - intros resp e Hget Hread. unfold consumeEndpoint. by rewrite Hget, Hread.
  - intros resp body Hget Hread. unfold consumeEndpoint, Unmarshal.
    rewrite Hget, Hread. split.
    + intros Hjson. by rewrite Hjson.
    + intros v Hjson. rewrite Hjson. cbn zeta.
      set (zero := mkSkyhubResponse (mkUrlSlice [] [])).
      split; [|split; [|split]].
      * intros Hconflict.
        destruct (snd (unmarshalSkyhubResponse v zero None)) as [e|] eqn:Herr.
        -- destruct (unmarshalSkyhubResponse_type v zero None)
             with (e := e) as [k ->]; [done|exact Herr|]. by exists k.
        -- assert (Hs : is_Some (snd (unmarshalSkyhubResponse v zero None))).
           { apply unmarshalSkyhubResponse_error. by right. }
           rewrite Herr in Hs. by destruct Hs.
      * intros Hconflict.
        destruct (snd (unmarshalSkyhubResponse v zero None)) as [e|] eqn:Herr;
          [|reflexivity].
        assert (Hs : is_Some (snd (unmarshalSkyhubResponse v zero None)))
          by (rewrite Herr; eauto).
        apply unmarshalSkyhubResponse_error in Hs as [[? [=]]|Hs]. congruence.
      * intros urls ->.
        destruct (unmarshal_manifestValue urls zero) as [Helems ->].
        by rewrite Helems.
      * intros [-> | (members & -> & Hm)]; [reflexivity|].
        by rewrite unmarshalSkyhubResponse_lacks_Images.
Qed.

End Manifest.

(** C5 read to the letter does not hold: the body [{}] is valid JSON that is not of the
    expected shape, and the manifest fetch returns the empty sequence of
    references without an error. *)
Lemma consumeEndpoint_empty_object_counterexample :
  let env := sampleEnv "{}" (Some (JObject [])) "" in
  http_Get env EndpointAddr = ret_ok EndpointAddr /\
  ioutil_ReadAll env EndpointAddr = ret_ok "{}" /\
  json_value env "{}" = Some (JObject []) /\
  (forall urls, JObject [] <> manifestValue urls) /\
  consumeEndpoint env EndpointAddr = ret_ok [].
Proof.
  intros env. repeat split. intros urls. discriminate.
Qed.

(** * Further properties of the code *)

(** ** nameFromUrl: when it panics, and what a derived name looks like *)

Lemma slice_middle (a b c : string) :
  slice (a +:+ b +:+ c) (len a) (len a + len b) = Ok b.
Proof.
  unfold slice.
  pose proof (len_nonneg a). pose proof (len_nonneg b). pose proof (len_nonneg c).
  replace (0 <=? len a) with true by (symmetry; apply Z.leb_le; lia).
  replace (len a <=? len a + len b) with true by (symmetry; apply Z.leb_le; lia).
  replace (len a + len b <=? len (a +:+ b +:+ c)) with true
    by (symmetry; apply Z.leb_le; rewrite !len_append; lia).
  cbn [andb]. f_equal.
  replace (Z.to_nat (len a)) with (String.length a) by (unfold len; lia).
  replace (Z.to_nat (len a + len b - len a)) with (String.length b)
    by (unfold len; lia).
  apply substring_middle.
Qed.

Lemma slice_panics (s : string) (lo hi : Z) :
  slice s lo hi = Panic <-> ~ (0 <= lo /\ lo <= hi /\ hi <= len s).
Proof.
  unfold slice.
  destruct (0 <=? lo) eqn:H1; destruct (lo <=? hi) eqn:H2;
    destruct (hi <=? len s) eqn:H3; cbn [andb];
    rewrite ?Z.leb_le, ?Z.leb_gt in *; split; (done || lia).
Qed.

Lemma nameFromUrl_panic_indices (url : string) :
  nameFromUrl url = Panic
  <-> 0 <= LastIndex url "." < LastIndex url "/" + 1.
Proof.
  unfold nameFromUrl.
  assert (Hl : -1 <= LastIndex url "/")
    by (destruct (LastIndex_range "/" url) as [[_ H]|[_ H]]; lia).
  assert (Hr : -1 <= LastIndex url "." <= len url).
  { pose proof (len_nonneg url).
    destruct (LastIndex_range "." url) as [[_ H']|[_ H']]; lia. }
  destruct ((LastIndex url "/" + 1 =? -1) || (LastIndex url "." =? -1)) eqn:Hg.
  - apply orb_true_iff in Hg as [Hg|Hg]; apply Z.eqb_eq in Hg;
      (split; [done|lia]).
  - apply orb_false_iff in Hg as [_ Hg]. apply Z.eqb_neq in Hg.
    rewrite slice_panics. lia.
Qed.

(** X1: [nameFromUrl] returns an error exactly when no [.] occurs in the
    URL; a URL without [/] is not an error. *)
Theorem nameFromUrl_error_iff (url : string) :
  (exists e, nameFromUrl url = Err e) <-> occurs "." url = false.
Proof. apply nameFromUrl_error. Qed.

(** X2: the slice of [nameFromUrl] panics exactly when a [.] occurs in
    the URL and the last one lies before the position that follows the
    last [/]; in every other case the function returns. *)
Theorem nameFromUrl_panics_iff (url : string) :
  nameFromUrl url = Panic
  <-> 0 <= LastIndex url "." < LastIndex url "/" + 1.
Proof. apply nameFromUrl_panic_indices. Qed.

(** The name derived from a URL without [/]: what precedes the last
    [.]. *)
Lemma nameFromUrl_no_slash (nm ext : string) :
  occurs "/" (nm +:+ "." +:+ ext) = false -> occurs "." ext = false ->
  nameFromUrl (nm +:+ "." +:+ ext) = Ok nm.
Proof.
  intros Hslash Hdot. unfold nameFromUrl.
  rewrite (LastIndex_absent "/" _ Hslash).
  change (nm +:+ "." +:+ ext) with (nm +:+ String "." ext).
  rewrite (LastIndex_last "." nm ext Hdot).
  pose proof (len_nonneg nm).
  replace (len nm =? -1) with false by (symmetry; apply Z.eqb_neq; lia).
  cbn [orb Z.add Z.eqb].
  pose proof (slice_middle "" nm ("." +:+ ext)) as H0.
  rewrite append_nil_l in H0. exact H0.
Qed.

Lemma nameFromUrl_slash_dot (pre nm ext : string) :
  occurs "/" nm = false -> occurs "/" ext = false -> occurs "." ext = false ->
  nameFromUrl (pre +:+ "/" +:+ nm +:+ "." +:+ ext) = Ok nm.
Proof.
  intros Hnm Hext Hdot.
  destruct (LastIndex_slash_name_dot_ext pre nm ext Hnm Hext Hdot) as [Hl Hr].
  unfold nameFromUrl. rewrite Hl, Hr.
  pose proof (len_nonneg pre). pose proof (len_nonneg nm).
  replace (len pre + 1 =? -1) with false by (symmetry; apply Z.eqb_neq; lia).
  replace (len pre + 1 + len nm =? -1) with false
    by (symmetry; apply Z.eqb_neq; lia).
  cbn [orb].
  pose proof (slice_middle (pre +:+ "/") nm ("." +:+ ext)) as H1.
  rewrite len_append in H1. change (len "/") with 1 in H1.
  rewrite append_assoc in H1. exact H1.
Qed.

Lemma nameFromUrl_Ok_split (url nm : string) :
  nameFromUrl url = Ok nm ->
  occurs "/" nm = false /\
  exists pre ext,
    url = pre +:+ nm +:+ "." +:+ ext /\
    occurs "." ext = false /\ occurs "/" ext = false /\
    (pre = "" \/ exists p, pre = p +:+ "/").
Proof.
  intros Hok.
  assert (Hnp : nameFromUrl url <> Panic) by (rewrite Hok; done).
  rewrite nameFromUrl_panic_indices in Hnp.
  destruct (LastIndex_range "." url) as [[Hd _]|[Hd Hr]].
  { apply nameFromUrl_error in Hd as [e He]. congruence. }
  destruct (LastIndex_range "/" url) as [[Hs Hl]|[Hs Hl]].
  - destruct (occurs_split_last "." url Hd) as (a & ext & -> & Hext).
    pose proof (nameFromUrl_no_slash a ext Hs Hext) as H0.
    change (a +:+ "." +:+ ext) with (a +:+ String "." ext) in H0.
    rewrite H0 in Hok. injection Hok as <-.
    rewrite !occurs_append in Hs.
    apply orb_false_iff in Hs as [Ha Hrest]. simpl in Hrest.
    split; [exact Ha|]. exists "", ext. rewrite append_nil_l. auto.
  - destruct (last_slash_before_last_dot_split url) as
        (pre & nm' & ext & -> & Hnm' & Hext & Hdot); [lia|].
    rewrite (nameFromUrl_slash_dot pre nm' ext Hnm' Hext Hdot) in Hok.
    injection Hok as <-. split; [exact Hnm'|].
    exists (pre +:+ "/"), ext. rewrite !append_assoc.
    split; [reflexivity|]. split; [exact Hdot|]. split; [exact Hext|].
    right. by exists pre.
Qed.

(** X3: a name that [nameFromUrl] returns contains no [/]; the URL is a
    prefix that is empty or ends in [/], then the name, a [.], and an
    extension without [.] and [/]. *)
Theorem nameFromUrl_name_shape (url nm : string) :
  nameFromUrl url = Ok nm ->
  occurs "/" nm = false /\
  exists pre ext,
    url = pre +:+ nm +:+ "." +:+ ext /\
    occurs "." ext = false /\ occurs "/" ext = false /\
    (pre = "" \/ exists p, pre = p +:+ "/").
Proof. apply nameFromUrl_Ok_split. Qed.

Lemma nameFromUrl_name_shape_witness :
  occurs "/" "b737_3" = false /\
  exists pre ext,
    "http://54.152.221.29/images/b737_3.jpg" = pre +:+ "b737_3" +:+ "." +:+ ext /\
    occurs "." ext = false /\ occurs "/" ext = false /\
    (pre = "" \/ exists p, pre = p +:+ "/").
Proof.
  apply (nameFromUrl_name_shape "http://54.152.221.29/images/b737_3.jpg" "b737_3").
  reflexivity.
Defined.

(** ** The size written in a name: strconv.Itoa read back by
    strconv.ParseUint *)

Lemma digits_of_uint (d : Decimal.uint) (c : ascii) :
  isDigit c = false -> occurs c (NilEmpty.string_of_uint d) = false.
Proof.
  intros Hc.
  induction d; simpl; try done;
    (case_decide as Heq; [by rewrite <- Heq in Hc|assumption]).
Qed.

Lemma accValue_mono (d : Decimal.uint) (n : Z) : 0 <= n -> n <= accValue d n.
Proof.
  revert n. induction d; intros n Hn; simpl; [lia|..];
    (etransitivity; [|apply IHd]; lia).
Qed.

Lemma cutoff10_value : cutoff10 = 1844674407370955162.
Proof. reflexivity. Qed.

(** The loop of [ParseUint] on a numeral reads its value, when this value
    fits in 32 bits. *)
Lemma parseUintFrom_numeral (d : Decimal.uint) (n : Z) :
  0 <= n -> accValue d n <= 2 ^ 32 - 1 ->
  parseUintFrom (2 ^ 32 - 1) (NilEmpty.string_of_uint d) n
  = ret_ok (accValue d n).
Proof.
  revert n.
  induction d; intros n Hn Hb; cbn [NilEmpty.string_of_uint accValue] in *;
    [reflexivity|..];
    (cbn [parseUintFrom];
     match goal with
     | |- context [isDigit ?c] => change (isDigit c) with true
     end; cbn iota;
     match goal with
     | |- context [Z.of_nat (nat_of_ascii ?c) - 48] =>
       let v := eval vm_compute in (Z.of_nat (nat_of_ascii c) - 48) in
       change (Z.of_nat (nat_of_ascii c) - 48) with v
     end;
     match type of Hb with
     | accValue _ ?m <= _ =>
       assert (Hm : 0 <= m) by lia;
       pose proof (accValue_mono d m Hm) as Hmono
     end;
     rewrite cutoff10_value;
     replace (1844674407370955162 <=? n) with false
       by (symmetry; apply Z.leb_gt; lia);
     rewrite (Z.mod_small (n * 10)) by lia;
     rewrite Z.mod_small by lia;
     match goal with
     | |- context [(?a <? ?b) || (?c <? ?a)] =>
       replace (a <? b) with false by (symmetry; apply Z.ltb_ge; lia);
       replace (c <? a) with false by (symmetry; apply Z.ltb_ge; lia)
     end;
     cbn [orb];
     match goal with
     | |- parseUintFrom _ _ ?a = ret_ok (accValue _ ?b) =>
       replace b with a in * by lia
     end;
     apply IHd; [lia|assumption]).
Qed.

Lemma accValue_of_uint_acc (d : Decimal.uint) (acc : positive) :
  Z.pos (Pos.of_uint_acc d acc) = accValue d (Z.pos acc).
Proof.
  revert acc. induction d; intros acc; simpl; [reflexivity|..];
    (rewrite IHd; f_equal; lia).
Qed.

Lemma accValue_of_uint (d : Decimal.uint) :
  Z.of_N (Pos.of_uint d) = accValue d 0.
Proof.
  induction d; simpl; [reflexivity|exact IHd|..];
    (rewrite accValue_of_uint_acc; reflexivity).
Qed.

(** The numeral of a positive number, and its value. *)
Lemma Itoa_pos (p : positive) :
  Itoa (Z.pos p) = NilEmpty.string_of_uint (Pos.to_uint p) /\
  accValue (Pos.to_uint p) 0 = Z.pos p.
Proof.
  split.
  - unfold Itoa. cbn [Z.to_int NilZero.string_of_int]. unfold NilZero.string_of_uint.
    pose proof (DecimalPos.Unsigned.to_uint_nonnil p).
    by destruct (Pos.to_uint p).
  - rewrite <- accValue_of_uint, DecimalPos.Unsigned.of_to. reflexivity.
Qed.

(** A numeral of [Itoa] for a number that is not negative is made of
    digits. *)
Lemma Itoa_digits (z : Z) (c : ascii) :
  0 <= z -> isDigit c = false -> occurs c (Itoa z) = false.
Proof.
  intros Hz Hc. destruct z as [|p|p].
  - unfold Itoa. simpl. case_decide as Heq; [by rewrite <- Heq in Hc|reflexivity].
  - destruct (Itoa_pos p) as [-> _]. by apply digits_of_uint.
  - lia.
Qed.

(** [ParseUint] reads back what [Itoa] writes, up to 32 bits. *)
Lemma ParseUint_Itoa (z : Z) :
  0 <= z < 2 ^ 32 -> ParseUint (Itoa z) 32 = ret_ok z.
Proof.
  intros Hz. destruct z as [|p|p]; [reflexivity| |lia].
  destruct (Itoa_pos p) as [Hs Hv]. unfold ParseUint. rewrite Hs.
  rewrite decide_False.
  - rewrite parseUintFrom_numeral by (rewrite ?Hv; lia). by rewrite Hv.
  - pose proof (DecimalPos.Unsigned.to_uint_nonnil p).
    by destruct (Pos.to_uint p).
Qed.

(** ** getImageSizeFromName *)

Lemma parseUintFrom_errors (maxVal : Z) (s : string) (n : Z) (e : error) :
  parseUintFrom maxVal s n = ret_err e -> e = ErrSyntax \/ e = ErrRange.
Proof.
  revert n. induction s as [|c s IH]; intros n; cbn [parseUintFrom]; [done|].
  destruct (isDigit c); [|intros [= <-]; by left].
  destruct (cutoff10 <=? n); [intros [= <-]; by right|]. cbn zeta.
  destruct (_ || _); [intros [= <-]; by right|]. apply IH.
Qed.

Lemma ParseUint_errors (s : string) (bitSize : Z) (e : error) :
  ParseUint s bitSize = ret_err e -> e = ErrSyntax \/ e = ErrRange.
Proof.
  unfold ParseUint. case_decide; [intros [= <-]; by left|].
  apply parseUintFrom_errors.
Qed.

(** The name [n_WxH.jpg] is cut at the last [_], the last [x] and the
    last [.], whatever [n] is, when [W] and [H] hold none of these. *)
Lemma getImageSizeFromName_parts (n W H : string) (w h : Z) :
  occurs "_" W = false -> occurs "_" H = false -> occurs "x" H = false ->
  ParseUint W 32 = ret_ok w -> ParseUint H 32 = ret_ok h ->
  getImageSizeFromName (n +:+ "_" +:+ W +:+ "x" +:+ H +:+ ".jpg")
  = Ok (mkImageSize w h).
Proof.
  intros HW HH HxH Hw Hh.
  set (nm := n +:+ "_" +:+ W +:+ "x" +:+ H +:+ ".jpg").
  assert (Hl : LastIndex nm "_" = len n).
  { apply (LastIndex_last "_" n (W +:+ "x" +:+ H +:+ ".jpg")).
    rewrite !occurs_append, HW, HH. reflexivity. }
  assert (Hm : LastIndex nm "x" = len n + 1 + len W).
  { subst nm.
    replace (n +:+ "_" +:+ W +:+ "x" +:+ H +:+ ".jpg")
      with ((n +:+ "_" +:+ W) +:+ String "x" (H +:+ ".jpg"))
      by (rewrite !append_assoc; reflexivity).
    rewrite LastIndex_last by (rewrite occurs_append, HxH; reflexivity).
    rewrite !len_append. change (len "_") with 1. lia. }
  assert (Hr : LastIndex nm "." = len n + 1 + len W + 1 + len H).
  { subst nm.
    replace (n +:+ "_" +:+ W +:+ "x" +:+ H +:+ ".jpg")
      with ((n +:+ "_" +:+ W +:+ "x" +:+ H) +:+ String "." "jpg")
      by (rewrite !append_assoc; reflexivity).
    rewrite LastIndex_last by reflexivity.
    rewrite !len_append. change (len "_") with 1. change (len "x") with 1. lia. }
  pose proof (len_nonneg n). pose proof (len_nonneg W). pose proof (len_nonneg H).
  unfold getImageSizeFromName. fold nm. rewrite Hl, Hm, Hr.
  replace (len n =? -1) with false by (symmetry; apply Z.eqb_neq; lia).
  replace (len n + 1 + len W =? -1) with false
    by (symmetry; apply Z.eqb_neq; lia).
  replace (len n + 1 + len W + 1 + len H =? -1) with false
    by (symmetry; apply Z.eqb_neq; lia).
  cbn [orb].
  assert (Hs1 : slice nm (len n + 1) (len n + 1 + len W) = Ok W).
  { pose proof (slice_middle (n +:+ "_") W ("x" +:+ H +:+ ".jpg")) as Hs.
    rewrite len_append in Hs. change (len "_") with 1 in Hs.
    rewrite append_assoc in Hs. exact Hs. }
  assert (Hs2 : slice nm (len n + 1 + len W + 1)
                  (len n + 1 + len W + 1 + len H) = Ok H).
  { pose proof (slice_middle (n +:+ "_" +:+ W +:+ "x") H ".jpg") as Hs.
    rewrite !len_append in Hs. change (len "_") with 1 in Hs.
    change (len "x") with 1 in Hs. rewrite !append_assoc in Hs.
    replace (len n + (1 + (len W + 1))) with (len n + 1 + len W + 1) in Hs by lia.
    exact Hs. }
  by rewrite Hs1, Hw, Hs2, Hh.
Qed.

Lemma int_of_uint_small (u : Z) : u < 2 ^ 63 -> int_of_uint u = u.
Proof.
  intros Hu. unfold int_of_uint.
  by replace (u <? 2 ^ 63) with true by (symmetry; apply Z.ltb_lt; lia).
Qed.

(** The size of a resized name is read back from it. *)
Lemma getImageSizeFromName_resizedName (n : string) (size : ImageSize) :
  0 <= width size < 2 ^ 32 -> 0 <= height size < 2 ^ 32 ->
  getImageSizeFromName (resizedName n size) = Ok size.
Proof.
  intros Hw Hh. unfold resizedName.
  rewrite !int_of_uint_small by lia.
  rewrite (getImageSizeFromName_parts n _ _ (width size) (height size)).
  - by destruct size.
  - apply Itoa_digits; [lia|reflexivity].
  - apply Itoa_digits; [lia|reflexivity].
  - apply Itoa_digits; [lia|reflexivity].
  - by apply ParseUint_Itoa.
  - by apply ParseUint_Itoa.
Qed.

(** X4: the name under which a resized image is stored tells its size:
    for every logical name, whatever bytes it holds, and every size whose
    dimensions fit in 32 bits, [getImageSizeFromName] reads back from the
    name built by [resizeAndStoreToDB] the size that was written. *)
Theorem size_read_back_from_name (n : string) (size : ImageSize) :
  0 <= width size < 2 ^ 32 -> 0 <= height size < 2 ^ 32 ->
  getImageSizeFromName (resizedName n size) = Ok size.
Proof. apply getImageSizeFromName_resizedName. Qed.

Lemma size_read_back_from_name_witness :
  getImageSizeFromName (resizedName "photo_x.2" mediumSize) = Ok mediumSize.
Proof.
  apply (size_read_back_from_name "photo_x.2" mediumSize); simpl; lia.
Defined.

(** X5: the name of a resized image determines the logical name and the
    size: two (logical name, size) pairs with dimensions below 2^32 that
    get the same name are the same pair. *)
Theorem resizedName_determines_name_and_size (n n' : string)
  (size size' : ImageSize) :
  0 <= width size < 2 ^ 32 -> 0 <= height size < 2 ^ 32 ->
  0 <= width size' < 2 ^ 32 -> 0 <= height size' < 2 ^ 32 ->
  resizedName n size = resizedName n' size' ->
  n = n' /\ size = size'.
Proof.
  intros Hw Hh Hw' Hh' Heq.
  assert (Hsize : size = size').
  { pose proof (getImageSizeFromName_resizedName n size Hw Hh) as H1.
    pose proof (getImageSizeFromName_resizedName n' size' Hw' Hh') as H2.
    rewrite Heq in H1. congruence. }
  subst size'. split; [|reflexivity].
  unfold resizedName in Heq. by apply append_inj_suffix in Heq as [-> _].
Qed.

Lemma resizedName_determines_name_and_size_witness :
  resizedName "a" smallSize = resizedName "a" (mkImageSize 320 240) /\
  ("a" = "a" /\ smallSize = mkImageSize 320 240).
Proof.
  split; [reflexivity|].
  apply (resizedName_determines_name_and_size "a" "a" smallSize
           (mkImageSize 320 240)); simpl; (lia || reflexivity).
Defined.

(** X6: [getImageSizeFromName] reports that it cannot read the size
    exactly when one of the three separators [_], [x] and [.] does not
    occur in the name. *)
Theorem getImageSizeFromName_missing_separator (nm : string) :
  getImageSizeFromName nm = Err (errorString "Can't read size from image name.")
  <-> occurs "_" nm = false \/ occurs "x" nm = false \/ occurs "." nm = false.
Proof.
  unfold getImageSizeFromName.
  destruct (LastIndex_range "_" nm) as [[Hl ->]|[Hl Hl']].
  { cbn [Z.eqb orb]. split; auto. }
  destruct (LastIndex_range "x" nm) as [[Hm ->]|[Hm Hm']].
  { rewrite orb_true_r. cbn [orb]. split; auto. }
  destruct (LastIndex_range "." nm) as [[Hr ->]|[Hr Hr']].
  { rewrite orb_true_r. split; auto. }
  replace (LastIndex nm "_" =? -1) with false by (symmetry; apply Z.eqb_neq; lia).
  replace (LastIndex nm "x" =? -1) with false by (symmetry; apply Z.eqb_neq; lia).
  replace (LastIndex nm "." =? -1) with false by (symmetry; apply Z.eqb_neq; lia).
  cbn [orb]. rewrite Hl, Hm, Hr. split; [|intros [H|[H|H]]; done].
  unfold slice.
  destruct (_ && _); [|done].
  destruct (ParseUint _ 32) as [w|e] eqn:Hw.
  2:{ apply ParseUint_errors in Hw as [-> | ->]; intros [=]. }
  destruct (_ && _); [|done].
  clear Hw.
  destruct (ParseUint _ 32) as [h|e] eqn:Hh; [done|].
  apply ParseUint_errors in Hh as [-> | ->]; intros [=].
Qed.

(** X7: when the last [x] of a name comes before its last [_] (and a [.]
    occurs), [getImageSizeFromName] neither returns a size nor an error:
    the slice for the width panics. *)
Theorem getImageSizeFromName_panics (a b c : string) :
  occurs "x" b = false -> occurs "x" c = false -> occurs "_" c = false ->
  occurs "." (a +:+ "x" +:+ b +:+ "_" +:+ c) = true ->
  getImageSizeFromName (a +:+ "x" +:+ b +:+ "_" +:+ c) = Panic.
Proof.
  intros Hb Hc Hu Hdot.
  set (nm := a +:+ "x" +:+ b +:+ "_" +:+ c) in *.
  assert (Hm : LastIndex nm "x" = len a).
  { apply (LastIndex_last "x" a (b +:+ "_" +:+ c)).
    rewrite !occurs_append, Hb, Hc. reflexivity. }
  assert (Hl : LastIndex nm "_" = len a + 1 + len b).
  { subst nm.
    replace (a +:+ "x" +:+ b +:+ "_" +:+ c)
      with ((a +:+ "x" +:+ b) +:+ String "_" c)
      by (rewrite !append_assoc; reflexivity).
    rewrite LastIndex_last by assumption.
    rewrite !len_append. change (len "x") with 1. lia. }
  pose proof (len_nonneg a). pose proof (len_nonneg b).
  unfold getImageSizeFromName. rewrite Hm, Hl.
  destruct (LastIndex_range "." nm) as [[Hr _]|[_ Hr]]; [congruence|].
  replace (len a + 1 + len b =? -1) with false by (symmetry; apply Z.eqb_neq; lia).
  replace (len a =? -1) with false by (symmetry; apply Z.eqb_neq; lia).
  replace (LastIndex nm "." =? -1) with false by (symmetry; apply Z.eqb_neq; lia).
  cbn [orb].
  assert (Hp : slice nm (len a + 1 + len b + 1) (len a) = Panic)
    by (apply slice_panics; lia).
  by rewrite Hp.
Qed.

Lemma getImageSizeFromName_panics_witness :
  getImageSizeFromName "box_1.jpg" = Panic.
Proof.
  apply (getImageSizeFromName_panics "bo" "" "1.jpg"); reflexivity.
Defined.

(** ** The run as a whole: what it writes and what it leaves alone *)

Lemma append_inj_prefix (p a b : string) : p +:+ a = p +:+ b -> a = b.
Proof.
  induction p as [|c p IH]; [done|].
  rewrite !append_cons. intros [= H]. by apply IH.
Qed.

Lemma upsert_length (nm : string) (d : MongoDocument) (docs : list MongoDocument) :
  (length docs <= length (upsert nm d docs))%nat.
Proof.
  induction docs as [|x docs IH]; simpl; [lia|].
  destruct (decide (doc_Name x = nm)); simpl; lia.
Qed.

Lemma resizedName_no_slash (n : string) (size : ImageSize) :
  size ∈ sizeSpecs -> occurs "/" n = false ->
  occurs "/" (resizedName n size) = false.
Proof.
  intros Hsize Hn. destruct (resizedName_suffix n) as (H1 & H2 & H3).
  unfold sizeSpecs in Hsize.
  repeat (apply elem_of_cons in Hsize as [->|Hsize]);
    [| | |by apply elem_of_nil in Hsize];
    rewrite ?H1, ?H2, ?H3, occurs_append, Hn; reflexivity.
Qed.

Section WholeRun.
Context {Response Image : Type}.
Variable env : Env Response Image.

(** A chain writes at most the file of its name. *)
Lemma chain_frame (info : @ImageInfo Image) (size : ImageSize)
  (w : World Image) (p : string) :
  p <> filepathPrefix +:+ resizedName (name info) size ->
  fs (snd (resizeAndStoreToDB env info size w)) !! p = fs w !! p.
Proof.
  intros Hp. rewrite resizeAndStoreToDB_cases.
  destruct (img info) as [i|]; [|done]. cbn zeta.
  destruct (os_Create env _) as [e|]; [done|].
  destruct (jpeg_Encode env _ _) as [e|].
  { cbn [snd afterCreate fs]. by rewrite lookup_insert_ne. }
  destruct (mgo_Upsert env _) as [e|]; cbn [snd afterEncode fs];
    by rewrite !lookup_insert_ne.
Qed.

Lemma chain_keeps_files (info : @ImageInfo Image) (size : ImageSize)
  (w : World Image) (p : string) :
  is_Some (fs w !! p) ->
  is_Some (fs (snd (resizeAndStoreToDB env info size w)) !! p).
Proof.
  intros Hp.
  destruct (decide (p = filepathPrefix +:+ resizedName (name info) size))
    as [->|Hne]; [|by rewrite chain_frame].
  rewrite resizeAndStoreToDB_cases.
  destruct (img info) as [i|]; [|done]. cbn zeta.
  destruct (os_Create env _) as [e|]; [done|].
  destruct (jpeg_Encode env _ _) as [e|].
  { cbn [snd afterCreate fs]. rewrite lookup_insert_eq. eauto. }
  destruct (mgo_Upsert env _) as [e|]; cbn [snd afterEncode fs];
    rewrite lookup_insert_eq; eauto.
Qed.

Lemma runChains_keeps_files (cs : list (@ImageInfo Image * ImageSize))
  (w : World Image) (p : string) :
  is_Some (fs w !! p) -> is_Some (fs (snd (runChains env cs w)) !! p).
Proof.
  revert w. induction cs as [|c cs IH]; intros w Hp; [exact Hp|].
  rewrite runChains_cons.
  pose proof (chain_keeps_files (fst c) (snd c) w p Hp) as H1.
  destruct (resizeAndStoreToDB env (fst c) (snd c) w) as [[[]|e|] w1];
    [by apply IH|exact H1..].
Qed.

(** A file that a sequence of chains has changed is the file of one of
    its chains. *)
Lemma runChains_changed (cs : list (@ImageInfo Image * ImageSize))
  (w : World Image) (p : string) :
  fs (snd (runChains env cs w)) !! p <> fs w !! p ->
  exists c, c ∈ cs /\ p = filepathPrefix +:+ resizedName (name (fst c)) (snd c).
Proof.
  revert w. induction cs as [|c cs IH]; intros w Hp; [done|].
  destruct (decide (p = filepathPrefix +:+ resizedName (name (fst c)) (snd c)))
    as [Heq|Hne].
  { exists c. split; [apply elem_of_cons; by left|exact Heq]. }
  rewrite runChains_cons in Hp.
  pose proof (chain_frame (fst c) (snd c) w p Hne) as H1.
  destruct (resizeAndStoreToDB env (fst c) (snd c) w) as [[[]|e|] w1];
    cbn [snd] in *; [|congruence..].
  destruct (IH w1) as (c' & Hc' & Hp'); [congruence|].
  exists c'. split; [apply elem_of_cons; by right|exact Hp'].
Qed.

Lemma runChains_frame (cs : list (@ImageInfo Image * ImageSize))
  (w : World Image) (p : string) :
  (forall c, c ∈ cs -> p <> filepathPrefix +:+ resizedName (name (fst c)) (snd c)) ->
  fs (snd (runChains env cs w)) !! p = fs w !! p.
Proof.
  revert w. induction cs as [|c cs IH]; intros w Hall; [reflexivity|].
  rewrite runChains_cons.
  assert (Hc : p <> filepathPrefix +:+ resizedName (name (fst c)) (snd c))
    by (apply Hall, elem_of_cons; by left).
  pose proof (chain_frame (fst c) (snd c) w p Hc) as H1.
  destruct (resizeAndStoreToDB env (fst c) (snd c) w) as [[[]|e|] w1];
    cbn [snd] in *; [|exact H1..].
  rewrite IH; [exact H1|]. intros c' Hc'. apply Hall, elem_of_cons. by right.
Qed.

(** After a successful sequence of chains with pairwise distinct names,
    the file of every chain holds the resized image of that chain. *)
Lemma runChains_stored (cs : list (@ImageInfo Image * ImageSize))
  (w w' : World Image) :
  runChains env cs w = (Ok tt, w') ->
  NoDup (map (fun c => resizedName (name (fst c)) (snd c)) cs) ->
  forall c image,
    c ∈ cs -> img (fst c) = Some image ->
    fs w' !! (filepathPrefix +:+ resizedName (name (fst c)) (snd c))
    = Some (Jpeg (resize_Resize env (width (snd c)) (height (snd c)) image)).
Proof.
  revert w. induction cs as [|c0 cs IH]; intros w Hrun Hnd c image Hc Himg.
  - by apply elem_of_nil in Hc.
  - cbn [map] in Hnd. apply NoDup_cons in Hnd as [Hfresh Hnd].
    rewrite runChains_cons in Hrun.
    destruct (resizeAndStoreToDB env (fst c0) (snd c0) w) as [r w1] eqn:Hc0.
    destruct r as [[]|e|]; [|done..].
    apply elem_of_cons in Hc as [->|Hc]; [|by apply (IH w1)].
    replace w' with (snd (runChains env cs w1)) by (by rewrite Hrun).
    rewrite runChains_frame.
    + rewrite resizeAndStoreToDB_cases, Himg in Hc0. cbn zeta in Hc0.
      destruct (os_Create env _) as [e|]; [done|].
      destruct (jpeg_Encode env _ _) as [e|]; [done|].
      destruct (mgo_Upsert env _) as [e|]; [done|].
      injection Hc0 as <-. cbn [fs afterEncode]. by rewrite lookup_insert_eq.
    + intros c' Hc' Heq. apply append_inj_prefix in Heq.
      apply Hfresh. rewrite Heq.
      by apply (list_elem_of_fmap_2
                  (fun c => resizedName (name (fst c)) (snd c))).
Qed.

Lemma chains_names_NoDup (images : list (@ImageInfo Image)) :
  NoDup (map name images) ->
  NoDup (map (fun c => resizedName (name (fst c)) (snd c)) (chains images)).
Proof.
  intros Hnd. apply records_NoDup in Hnd.
  rewrite <- chain_documents, <- list_fmap_compose in Hnd. exact Hnd.
Qed.

(** X8: when [resizeAndStoreImgsToDB] succeeds on images with pairwise
    distinct names, then for every image and each of the three sizes the
    file of that name holds the image resized to that size, and the
    document of that name is the one an upsert on the name finds in the
    index. *)
Theorem stored_files_hold_resized_images (images : list (@ImageInfo Image))
  (w w' : World Image) :
  resizeAndStoreImgsToDB env images w = (Ok tt, w') ->
  NoDup (map name images) ->
  forall info size image,
    info ∈ images -> size ∈ sizeSpecs -> img info = Some image ->
    let nm := resizedName (name info) size in
    fs w' !! (filepathPrefix +:+ nm)
    = Some (Jpeg (resize_Resize env (width size) (height size) image)) /\
    findDoc nm (db w') = Some (documentFor nm).
Proof.
  intros Hrun Hnd info size image Hinfo Hsize Himg nm.
  rewrite resizeAndStoreImgsToDB_runChains in Hrun.
  assert (Hc : (info, size) ∈ chains images) by (by apply elem_of_chains).
  split.
  - apply (runChains_stored (chains images) w w' Hrun
             (chains_names_NoDup images Hnd) (info, size) image Hc Himg).
  - apply (runChains_settles env (chains images) w w' Hrun (info, size) Hc).
Qed.

(** A sequence of chains succeeds when the outside reports no error for
    any of them. *)
Lemma runChains_succeeds (cs : list (@ImageInfo Image * ImageSize))
  (w : World Image) :
  (forall c, c ∈ cs ->
     exists image,
       img (fst c) = Some image /\
       os_Create env (filepathPrefix +:+ resizedName (name (fst c)) (snd c)) = None /\
       jpeg_Encode env (filepathPrefix +:+ resizedName (name (fst c)) (snd c))
         (resize_Resize env (width (snd c)) (height (snd c)) image) = None /\
       mgo_Upsert env (documentFor (resizedName (name (fst c)) (snd c))) = None) ->
  fst (runChains env cs w) = Ok tt.
Proof.
  revert w. induction cs as [|c cs IH]; intros w Hall; [reflexivity|].
  rewrite runChains_cons.
  destruct (Hall c) as (image & Himg & Hcreate & Hencode & Hupsert);
    [apply elem_of_cons; by left|].
  rewrite resizeAndStoreToDB_cases, Himg. cbn zeta.
  rewrite Hcreate, Hencode, Hupsert.
  apply IH. intros c' Hc'. apply Hall, elem_of_cons. by right.
Qed.

(** X9: when the manifest is fetched, every image is downloaded and
    decoded with a name, the database is reached and no store and no
    upsert of the images' chains reports an error, the run reaches the
    listening server, and the index is the old one after the upserts of
    the three documents of each image, in order. *)
Theorem main_succeeds (w : World Image) (urls : list Url)
  (images : list (@ImageInfo Image)) :
  consumeEndpoint env EndpointAddr = ret_ok urls ->
  getJpegImgs env urls = Ok images ->
  mgo_Dial env DatabaseAddr = None ->
  (forall info size image,
     info ∈ images -> size ∈ sizeSpecs -> img info = Some image ->
     os_Create env (filepathPrefix +:+ resizedName (name info) size) = None /\
     jpeg_Encode env (filepathPrefix +:+ resizedName (name info) size)
       (resize_Resize env (width size) (height size) image) = None /\
     mgo_Upsert env (documentFor (resizedName (name info) size)) = None) ->
  fst (main env w) = Listening /\
  db (snd (main env w))
  = upsertAll (flat_map recordsOf (map name images)) (db w).
Proof.
  intros Hurls Himgs Hdial Hstore.
  assert (Hok : fst (runChains env (chains images) w) = Ok tt).
  { apply runChains_succeeds. intros c [Hinfo Hsize]%elem_of_chains.
    rewrite getJpegImgs_fetchAll, fetchAll_Ok in Himgs.
    apply list_elem_of_lookup in Hinfo as (i & Hi).
    destruct (Forall2_lookup_r _ _ _ _ _ Himgs Hi) as (u & _ & Hu).
    apply fetchAndDecode_Ok in Hu as (resp & im & nm & _ & _ & _ & Heq).
    exists im. split; [by rewrite Heq|].
    apply Hstore; [by eapply list_elem_of_lookup_2|exact Hsize|by rewrite Heq]. }
  unfold main, connectToDatabase. rewrite Hurls, Himgs, Hdial.
  rewrite resizeAndStoreImgsToDB_runChains.
  destruct (runChains env (chains images) w) as [r w'] eqn:Hrun.
  cbn [fst] in Hok. subst r. cbn [fst snd]. split; [reflexivity|].
  apply runChains_upserts in Hrun. by rewrite chain_documents in Hrun.
Qed.

(** X10: a run removes no file, and every file it creates or changes
    lies directly in the storage folder: its path is [filepathPrefix]
    followed by a name without [/]. *)
Theorem main_writes_only_into_the_folder (w : World Image) :
  (forall p, is_Some (fs w !! p) -> is_Some (fs (snd (main env w)) !! p)) /\
  (forall p,
     fs (snd (main env w)) !! p <> fs w !! p ->
     exists nm, p = filepathPrefix +:+ nm /\ occurs "/" nm = false).
Proof.
  destruct (main_cases env w) as [(e & -> & _)|[(urls & _ & _ & ->)|
    (urls & images & _ & Himgs & _ & ->)]]; [by split..|].
  assert (Hsnd : snd (match runChains env (chains images) w with
                      | (Ok _, w') => (Listening, w')
                      | (Err e, w') => (Fatal e, w')
                      | (Panic, w') => (Crashed, w')
                      end) = snd (runChains env (chains images) w))
    by (by destruct (runChains env (chains images) w) as [[?|?|] ?]).
  rewrite Hsnd. split.
  - intros p. apply runChains_keeps_files.
  - intros p Hp.
    apply runChains_changed in Hp as (c & [Hinfo Hsize]%elem_of_chains & ->).
    exists (resizedName (name (fst c)) (snd c)). split; [reflexivity|].
    apply resizedName_no_slash; [exact Hsize|].
    rewrite getJpegImgs_fetchAll, fetchAll_Ok in Himgs.
    apply list_elem_of_lookup in Hinfo as (i & Hi).
    destruct (Forall2_lookup_r _ _ _ _ _ Himgs Hi) as (u & _ & Hu).
    apply fetchAndDecode_Ok in Hu as (resp & im & nm & _ & _ & Hnm & ->).
    cbn [name]. by apply nameFromUrl_Ok_split in Hnm as [Hnm _].
Qed.

Lemma chain_index_step (info : @ImageInfo Image) (size : ImageSize)
  (w : World Image) :
  let w' := snd (resizeAndStoreToDB env info size w) in
  (forall nm, findDoc nm (db w') = findDoc nm (db w)
              \/ findDoc nm (db w') = Some (documentFor nm)) /\
  (length (db w) <= length (db w'))%nat /\
  (forall d, d ∈ db w' -> d ∈ db w \/ d = documentFor (doc_Name d)).
Proof.
  intros w'. subst w'.
  destruct (resizeAndStoreToDB_db env info size w) as [[_ ->]|[_ ->]];
    [|by repeat split; auto].
  split; [|split].
  - intros nm. rewrite findDoc_upsert by reflexivity.
    case_decide as Heq; [right; by rewrite Heq|by left].
  - apply upsert_length.
  - intros d [->|Hd]%elem_of_upsert; [by right|by left].
Qed.

Lemma runChains_index (cs : list (@ImageInfo Image * ImageSize))
  (w : World Image) :
  let w' := snd (runChains env cs w) in
  (forall nm, findDoc nm (db w') = findDoc nm (db w)
              \/ findDoc nm (db w') = Some (documentFor nm)) /\
  (length (db w) <= length (db w'))%nat /\
  (forall d, d ∈ db w' -> d ∈ db w \/ d = documentFor (doc_Name d)).
Proof.
  revert w. induction cs as [|c cs IH]; intros w; [by repeat split; auto|].
  cbn zeta. rewrite runChains_cons.
  pose proof (chain_index_step (fst c) (snd c) w) as (H1 & H2 & H3).
  destruct (resizeAndStoreToDB env (fst c) (snd c) w) as [[[]|e|] w1];
    cbn [snd] in *; [|by repeat split; auto..].
  destruct (IH w1) as (I1 & I2 & I3). split; [|split].
  - intros nm. destruct (I1 nm) as [-> | ->]; [apply H1|by right].
  - lia.
  - intros d Hd. destruct (I3 d Hd) as [Hd'|Hd']; [by apply H3|by right].
Qed.

(** X11: a run only adds to the index.  For every name, the document an
    upsert on that name finds after the run is the one it found before, or
    else the document that the run writes for that name; the index does
    not get shorter; and every document of the index after the run was
    there before or carries the address built from its name. *)
Theorem main_only_adds_to_the_index (w : World Image) :
  (forall nm,
     findDoc nm (db (snd (main env w))) = findDoc nm (db w) \/
     findDoc nm (db (snd (main env w)))
     = Some (mkMongoDocument nm ("http://localhost:7366/skyhub/" +:+ nm))) /\
  (length (db w) <= length (db (snd (main env w))))%nat /\
  (forall d,
     d ∈ db (snd (main env w)) ->
     d ∈ db w \/ doc_Url d = "http://localhost:7366/skyhub/" +:+ doc_Name d).
Proof.
  destruct (main_cases env w) as [(e & -> & _)|[(urls & _ & _ & ->)|
    (urls & images & _ & _ & _ & ->)]];
    [by repeat split; auto; lia..|].
  assert (Hsnd : snd (match runChains env (chains images) w with
                      | (Ok _, w') => (Listening, w')
                      | (Err e, w') => (Fatal e, w')
                      | (Panic, w') => (Crashed, w')
                      end) = snd (runChains env (chains images) w))
    by (by destruct (runChains env (chains images) w) as [[?|?|] ?]).
  rewrite Hsnd.
  destruct (runChains_index (chains images) w) as (H1 & H2 & H3).
  split; [exact H1|]. split; [exact H2|].
  intros d Hd. destruct (H3 d Hd) as [Hd'|Hd']; [by left|right].
  by rewrite Hd' at 1.
Qed.

(** X12: when [os.Create] succeeds and [jpeg.Encode] then fails, the
    chain fails with the error of the encoder and leaves the index as it
    was, but the file of the name is left incomplete, whatever it held
    before; no other file is touched. *)
Theorem failed_encode_leaves_incomplete_file (info : @ImageInfo Image)
  (size : ImageSize) (w : World Image) (image : Image) (e : error) :
  img info = Some image ->
  os_Create env (filepathPrefix +:+ resizedName (name info) size) = None ->
  jpeg_Encode env (filepathPrefix +:+ resizedName (name info) size)
    (resize_Resize env (width size) (height size) image) = Some e ->
  let path := filepathPrefix +:+ resizedName (name info) size in
  let w' := snd (resizeAndStoreToDB env info size w) in
  fst (resizeAndStoreToDB env info size w) = Err e /\
  db w' = db w /\
  fs w' !! path = Some Partial /\
  (forall p, p <> path -> fs w' !! p = fs w !! p).
Proof.
  intros Himg Hcreate Hencode path w'. subst w'.
  split; [|split; [|split]].
  - rewrite resizeAndStoreToDB_cases, Himg. cbn zeta.
    by rewrite Hcreate, Hencode.
  - rewrite resizeAndStoreToDB_cases, Himg. cbn zeta.
    by rewrite Hcreate, Hencode.
  - rewrite resizeAndStoreToDB_cases, Himg. cbn zeta.
    rewrite Hcreate, Hencode. cbn [snd afterCreate fs].
    by rewrite lookup_insert_eq.
  - intros p Hp. by apply chain_frame.
Qed.

(** X13: [getJpegImgs] returns the failure of the first reference that
    fails: when the references before it succeed, its error is returned
    (or its panic is raised), whatever follows it in the list. *)
Theorem getJpegImgs_first_failure (before after : list Url) (u : Url) :
  Forall (fun u' => exists info, fetchAndDecode env u' = Ok info) before ->
  (forall e, fetchAndDecode env u = Err e ->
             getJpegImgs env (before ++ u :: after) = Err e) /\
  (fetchAndDecode env u = Panic ->
   getJpegImgs env (before ++ u :: after) = Panic).
Proof.
  intros Hbefore. rewrite getJpegImgs_fetchAll.
  induction Hbefore as [|u' before [info Hu'] _ IH]; cbn [app fetchAll].
  - split; [intros e He|intros He]; by rewrite He.
  - rewrite Hu'. destruct IH as [IH1 IH2].
    split; [intros e He; by rewrite (IH1 e He)|intros He; by rewrite (IH2 He)].
Qed.

(** X14: a manifest without images (the body is the empty object or
    null) is not an error: when the database is reached, the run starts
    the server and writes nothing. *)
Theorem empty_manifest_runs (w : World Image) (resp : Response)
  (body : string) (v : JSON) :
  http_Get env EndpointAddr = ret_ok resp ->
  ioutil_ReadAll env resp = ret_ok body ->
  json_value env body = Some v ->
  v = JObject [] \/ v = JNull ->
  mgo_Dial env DatabaseAddr = None ->
  getJpegImgs env [] = Ok [] /\ main env w = (Listening, w).
Proof.
  intros Hget Hread Hjson Hv Hdial. split; [reflexivity|].
  unfold main, consumeEndpoint, Unmarshal, connectToDatabase.
  rewrite Hget, Hread, Hjson, Hdial.
  by destruct Hv as [-> | ->].
Qed.

End WholeRun.

Lemma stored_files_hold_resized_images_witness :
  let env := manifestEnv [] "" in
  let images := [mkImageInfo (Some "image of http://h/a.jpg") "a";
                 mkImageInfo (Some "image of http://h/b.jpg") "b"] in
  let w' := snd (resizeAndStoreImgsToDB env images emptyWorld) in
  fs w' !! "/home/edufgf/Desktop/B2W/skyhub/b_384x288.jpg"
  = Some (Jpeg "image of http://h/b.jpg resized to 384x288") /\
  findDoc "b_384x288.jpg" (db w') = Some (documentFor "b_384x288.jpg").
Proof.
  intros env images w'.
  apply (stored_files_hold_resized_images env images emptyWorld w' eq_refl)
    with (info := mkImageInfo (Some "image of http://h/b.jpg") "b")
         (size := mediumSize) (image := "image of http://h/b.jpg").
  - repeat constructor; rewrite ?elem_of_cons, elem_of_nil; intros H;
      repeat destruct H as [H|H]; done.
  - apply elem_of_cons. right. apply elem_of_cons. by left.
  - apply elem_of_cons. right. apply elem_of_cons. by left.
  - reflexivity.
Defined.

Lemma main_succeeds_witness :
  let env := manifestEnv ["http://h/a.jpg"; "http://h/b.jpg"] "" in
  fst (main env emptyWorld) = Listening /\
  db (snd (main env emptyWorld))
  = upsertAll (flat_map recordsOf ["a"; "b"]) (db emptyWorld).
Proof.
  intros env.
  apply (main_succeeds env emptyWorld
           [mkUrl "http://h/a.jpg"; mkUrl "http://h/b.jpg"]
           [mkImageInfo (Some "image of http://h/a.jpg") "a";
            mkImageInfo (Some "image of http://h/b.jpg") "b"]).
  - reflexivity.
  - reflexivity.
  - reflexivity.
  - intros info size image _ _ _. repeat split.
Defined.

Lemma failed_encode_leaves_incomplete_file_witness :
  let info := mkImageInfo (Some "image of http://h/a.jpg") "a" in
  let w := snd (resizeAndStoreToDB (manifestEnv [] "") info smallSize emptyWorld) in
  let path := filepathPrefix +:+ resizedName (name info) smallSize in
  let w' := snd (resizeAndStoreToDB fullDiskEnv info smallSize w) in
  fs w !! path
  = Some (Jpeg "image of http://h/a.jpg resized to 320x240") /\
  (fst (resizeAndStoreToDB fullDiskEnv info smallSize w)
   = Err (externalError "write: no space left on device") /\
   db w' = db w /\
   fs w' !! path = Some Partial /\
   (forall p, p <> path -> fs w' !! p = fs w !! p)).
Proof.
  intros info w path w'. split; [reflexivity|].
  apply (failed_encode_leaves_incomplete_file fullDiskEnv info smallSize w
           "image of http://h/a.jpg"
           (externalError "write: no space left on device")); reflexivity.
Defined.

Lemma getJpegImgs_first_failure_witness :
  let env := manifestEnv [] "http://h/b.jpg" in
  let before := [mkUrl "http://h/a.jpg"] in
  let u := mkUrl "http://h/b.jpg" in
  let after := [mkUrl "http://h/c.jpg"] in
  (forall e, fetchAndDecode env u = Err e ->
             getJpegImgs env (before ++ u :: after) = Err e) /\
  (fetchAndDecode env u = Panic ->
   getJpegImgs env (before ++ u :: after) = Panic).
Proof.
  intros env before u after.
  apply (getJpegImgs_first_failure env before after u).
  repeat constructor. eexists. reflexivity.
Defined.

Lemma empty_manifest_runs_witness :
  let env := sampleEnv "{}" (Some (JObject [])) "" in
  getJpegImgs env [] = Ok [] /\ main env emptyWorld = (Listening, emptyWorld).
Proof.
  intros env.
  apply (empty_manifest_runs env emptyWorld EndpointAddr "{}" (JObject []));
    try reflexivity.
  by left.
Defined.
